(** * ReDO network components: a shallow embedding and its verification

    The source is [src/network_components.py]: four Keras layers
    ([SpectralNormalization], [SelfAttentionModule], [ResidualBlock],
    [InstanceNormalization]).

    Conventions of the embedding.
    - A [tf.Tensor] is a shape together with its row-major data.  The
      elements are real numbers: [tf.float32] arithmetic is idealised,
      rounding, infinities and NaN are out of scope.  In particular a
      division by zero, which gives an infinity or NaN in the code, has
      no counterpart here: the statements that depend on the value of a
      quotient hold the divisor non-zero.
    - Python exceptions are values of [result]; a method that mutates its
      object returns the new object next to its value.
    - The tensor algebra the source calls directly (reshape, matmul,
      broadcasting arithmetic, reductions) and the Keras variable store
      ([add_weight], [get_weights], [set_weights]) are modelled in the
      first part of the file.  The numerical kernels of the framework
      layers (convolution, pooling, ReLU, softmax) and the random
      initialisers are parameters, collected in the class [Framework]. *)

From Stdlib Require Import Reals String List Bool Arith ZArith Lia Lra.
Import ListNotations.

Set Implicit Arguments.

(* ================================================================== *)
(** * Exceptions *)

Inductive error : Type :=
| UnboundLocalError
| IndexError
| AttributeError
| ValueError
| InvalidArgumentError.

Inductive result (A : Type) : Type :=
| Ok (a : A)
| Raise (e : error).

Arguments Ok {A} a.
Arguments Raise {A} e.

Definition bind {A B : Type} (m : result A) (k : A -> result B) : result B :=
  match m with
  | Ok a => k a
  | Raise e => Raise e
  end.

Notation "x <- m ;; k" := (bind m (fun x => k))
  (at level 61, m at next level, right associativity).
Notation "' pat <- m ;; k" := (bind m (fun x => match x with pat => k end))
  (at level 61, pat pattern, m at next level, right associativity).

Definition of_option {A : Type} (e : error) (o : option A) : result A :=
  match o with
  | Some a => Ok a
  | None => Raise e
  end.

(* ================================================================== *)
(** * Tensors *)

Record tensor : Type := mkTensor { shape : list nat; data : list R }.

Definition size_of (s : list nat) : nat := fold_right Nat.mul 1 s.

Definition tabulate (n : nat) (f : nat -> R) : list R := map f (seq 0 n).

Definition item (d : list R) (i : nat) : R := nth i d 0%R.

Definition sum_list (d : list R) : R := fold_right Rplus 0%R d.

Definition sum_upto (n : nat) (f : nat -> R) : R := sum_list (tabulate n f).

(** A tensor is well shaped when it holds as many elements as its shape
    announces. *)
Definition well_shaped (t : tensor) : Prop :=
  length (data t) = size_of (shape t).

Definition shape_eqb (a b : list nat) : bool :=
  if list_eq_dec Nat.eq_dec a b then true else false.

(** A Python number used where a tensor is expected is a rank-0 tensor. *)
Definition constant (c : R) : tensor := mkTensor [] [c].

(** ** Row-major indexing *)

Fixpoint unravel (s : list nat) (i : nat) : list nat :=
  match s with
  | [] => []
  | _ :: s' => (i / size_of s') :: unravel s' (i mod size_of s')
  end.

Fixpoint ravel (s idx : list nat) : nat :=
  match s, idx with
  | _ :: s', j :: idx' => j * size_of s' + ravel s' idx'
  | _, _ => 0
  end.

(** ** Broadcasting

    Shapes are aligned on their last axis; two extents are compatible when
    they are equal or one of them is 1. *)

Fixpoint broadcast_rev (a b : list nat) : option (list nat) :=
  match a, b with
  | [], _ => Some b
  | _, [] => Some a
  | x :: a', y :: b' =>
      if x =? y then option_map (cons x) (broadcast_rev a' b')
      else if x =? 1 then option_map (cons y) (broadcast_rev a' b')
      else if y =? 1 then option_map (cons x) (broadcast_rev a' b')
      else None
  end.

Definition broadcast_shapes (a b : list nat) : option (list nat) :=
  option_map (@rev nat) (broadcast_rev (rev a) (rev b)).

Fixpoint clamp_index (s idx : list nat) : list nat :=
  match s, idx with
  | d :: s', j :: idx' => (if d =? 1 then 0 else j) :: clamp_index s' idx'
  | _, _ => []
  end.

(** The index into a tensor of shape [s] that an index [idx] of the
    broadcast result reads. *)
Definition bcast_index (s idx : list nat) : list nat :=
  clamp_index s (skipn (length idx - length s) idx).

Definition bcast_item (out : list nat) (t : tensor) (i : nat) : R :=
  item (data t) (ravel (shape t) (bcast_index (shape t) (unravel out i))).

Definition elementwise (f : R -> R -> R) (a b : tensor) : result tensor :=
  match broadcast_shapes (shape a) (shape b) with
  | None => Raise InvalidArgumentError
  | Some s =>
      Ok (mkTensor s
            (tabulate (size_of s)
               (fun i => f (bcast_item s a i) (bcast_item s b i))))
  end.

Definition tf_add : tensor -> tensor -> result tensor := elementwise Rplus.
Definition tf_sub : tensor -> tensor -> result tensor := elementwise Rminus.
Definition tf_mul : tensor -> tensor -> result tensor := elementwise Rmult.

(** [a / b].  Where an element of [b] is 0 the code yields an infinity or
    NaN; the quotient of the model is meaningful for non-zero divisors
    only. *)
Definition tf_div : tensor -> tensor -> result tensor := elementwise Rdiv.

(** ** Unary operations and full reductions *)

Definition tf_map (f : R -> R) (t : tensor) : tensor :=
  mkTensor (shape t) (map f (data t)).

(** [t ** 2] *)
Definition pow_2 : tensor -> tensor := tf_map (fun x => (x * x)%R).

(** [t ** 0.5], the principal square root *)
Definition pow_half : tensor -> tensor := tf_map sqrt.

(** [tf.math.reduce_sum(t)] over every axis *)
Definition reduce_sum (t : tensor) : tensor :=
  mkTensor [] [sum_list (data t)].

(** ** Reshape

    [tf.reshape(t, dims)], where one entry of [dims] may be [-1]: that
    extent is inferred as the number of elements of [t] divided by the
    product of the given non-zero extents, which must divide it.  When
    [dims] holds a 0, the zero extents of [t] are left out of that count
    (and the divisibility is not asked for), so that the free extent can
    still be inferred.  In every case the new shape must hold as many
    elements as [t]. *)

Definition known_extent (dims : list Z) : nat :=
  fold_right (fun d acc => if (d <=? 0)%Z then acc else Z.to_nat d * acc) 1 dims.

Definition count_inferred (dims : list Z) : nat :=
  length (filter (fun d => (d <? 0)%Z) dims).

Definition has_zero (dims : list Z) : bool :=
  existsb (fun d => (d =? 0)%Z) dims.

Definition counted_elements (skip_zero : bool) (s : list nat) : nat :=
  fold_right (fun d acc => if skip_zero && (d =? 0) then acc else d * acc) 1 s.

Definition tf_reshape (t : tensor) (dims : list Z) : result tensor :=
  if existsb (fun d => (d <? -1)%Z) dims then Raise InvalidArgumentError else
  match count_inferred dims with
  | 0 => let s := map Z.to_nat dims in
         if size_of (shape t) =? size_of s
         then Ok (mkTensor s (data t))
         else Raise InvalidArgumentError
  | 1 => let k := known_extent dims in
         let n := counted_elements (has_zero dims) (shape t) in
         let input_has_zero :=
           has_zero dims && existsb (Nat.eqb 0) (shape t) in
         let missing := n / k in
         let s := map (fun d => if (d <? 0)%Z then missing else Z.to_nat d)
                    dims in
         if negb input_has_zero && negb (k * missing =? n)
         then Raise InvalidArgumentError
         else if size_of (shape t) =? size_of s
         then Ok (mkTensor s (data t))
         else Raise InvalidArgumentError
  | _ => Raise InvalidArgumentError
  end.

(** ** Matrix product

    [tf.matmul(a, b, transpose_a, transpose_b)] multiplies the matrices
    held in the last two axes; the leading (batch) axes of the operands
    are broadcast against each other. *)

Definition split_last2 (s : list nat) : option (list nat * nat * nat) :=
  match rev s with
  | c :: r :: b => Some (rev b, r, c)
  | _ => None
  end.

Definition tf_matmul (a b : tensor) (transpose_a transpose_b : bool)
  : result tensor :=
  match split_last2 (shape a), split_last2 (shape b) with
  | Some (ba, ra, ca), Some (bb, rb, cb) =>
      let m := if transpose_a then ca else ra in
      let k := if transpose_a then ra else ca in
      let k' := if transpose_b then cb else rb in
      let n := if transpose_b then rb else cb in
      match broadcast_shapes ba bb with
      | Some bs =>
          if k =? k' then
            Ok (mkTensor (bs ++ [m; n])
                  (tabulate (size_of (bs ++ [m; n]))
                     (fun p =>
                        let idx := unravel bs (p / (m * n)) in
                        let ia := ravel ba (bcast_index ba idx) in
                        let ib := ravel bb (bcast_index bb idx) in
                        let i := (p mod (m * n)) / n in
                        let j := (p mod (m * n)) mod n in
                        sum_upto k (fun l =>
                          (item (data a)
                             (ia * (ra * ca)
                              + (if transpose_a then l * ca + i else i * ca + l))
                           * item (data b)
                               (ib * (rb * cb)
                                + (if transpose_b then j * cb + l
                                   else l * cb + j)))%R))))
          else Raise InvalidArgumentError
      | None => Raise InvalidArgumentError
      end
  | _, _ => Raise InvalidArgumentError
  end.

(* ================================================================== *)
(** * The framework: variables, initialisers and layer kernels *)

Inductive initializer : Type :=
| RandomNormal
| GlorotUniform
| Zeros
| Ones
| Orthogonal (gain : R).

Inductive padding : Type := Valid | Same.

(** [Union[int, Tuple[int, int]]] *)
Inductive stride : Type :=
| StrideInt (s : nat)
| StridePair (sh sw : nat).

Definition stride_pair (s : stride) : nat * nat :=
  match s with
  | StrideInt n => (n, n)
  | StridePair a b => (a, b)
  end.

(** What the source takes from TensorFlow and Keras without looking
    inside: the values the random initialisers draw and the forward
    computations of the stock layers. *)
Class Framework : Type := {
  (** element [i] of a fresh tensor of the given shape *)
  random_value : initializer -> list nat -> nat -> R;
  (** [Conv2D] forward: strides, padding, kernel, bias, input; it raises
      on operands it cannot convolve *)
  conv2d : nat * nat -> padding -> tensor -> option tensor -> tensor
           -> result tensor;
  (** [ReLU()] *)
  relu : tensor -> tensor;
  (** [MaxPool2D(pool_size=(2, 2))] *)
  max_pool : tensor -> tensor;
  (** [AveragePooling2D(pool_size=(2, 2))] *)
  average_pool : tensor -> tensor;
  (** [Softmax(axis=2)] *)
  softmax : tensor -> tensor
}.

(** A [tf.Variable] registered with a layer. *)
Record tfVariable : Type := mkVariable {
  var_name : string;
  var_value : tensor;
  var_trainable : bool
}.

Definition set_value (v : tfVariable) (t : tensor) : tfVariable :=
  mkVariable (var_name v) t (var_trainable v).

Section KerasLayer.
Context {FW : Framework}.

Definition initial_value (ini : initializer) (s : list nat) : tensor :=
  mkTensor s
    (tabulate (size_of s)
       (match ini with
        | Zeros => fun _ => 0%R
        | Ones => fun _ => 1%R
        | _ => random_value ini s
        end)).

(** [Layer.add_weight]: the variable is created at once and appended to
    the layer's variables.  Every layer of the source registers
    variables of one kind only (all trainable, or all not), so the order
    of creation is the order [weights] and [get_weights] report. *)
Definition add_weight (vars : list tfVariable) (name : string)
    (s : list nat) (ini : initializer) (trainable : bool)
  : list tfVariable :=
  vars ++ [mkVariable name (initial_value ini s) trainable].

Definition get_weights (vars : list tfVariable) : list tensor :=
  map var_value vars.

(** [Layer.set_weights]: as many values as variables, each of the shape
    of its variable. *)
Fixpoint set_weights (vars : list tfVariable) (vals : list tensor)
  : result (list tfVariable) :=
  match vars, vals with
  | [], [] => Ok []
  | v :: vars', t :: vals' =>
      if shape_eqb (shape (var_value v)) (shape t)
      then rest <- set_weights vars' vals';; Ok (set_value v t :: rest)
      else Raise ValueError
  | _, _ => Raise ValueError
  end.

(** The variable an attribute such as [self.u] or [layer.kernel_orig]
    is bound to: the latest one registered under that name. *)
Definition find_var (name : string) (vars : list tfVariable)
  : option tfVariable :=
  find (fun v => String.eqb (var_name v) name) (rev vars).

Definition read_var (name : string) (vars : list tfVariable)
  : result tensor :=
  of_option AttributeError (option_map var_value (find_var name vars)).

(** [variable.assign(t)] on the first variable called [name], searching
    from the end. *)
Fixpoint assign_rev (name : string) (t : tensor) (rvars : list tfVariable)
  : result (list tfVariable) :=
  match rvars with
  | [] => Raise AttributeError
  | v :: rest =>
      if String.eqb (var_name v) name then
        if shape_eqb (shape (var_value v)) (shape t)
        then Ok (set_value v t :: rest)
        else Raise ValueError
      else rest' <- assign_rev name t rest;; Ok (v :: rest')
  end.

Definition assign_var (name : string) (t : tensor) (vars : list tfVariable)
  : result (list tfVariable) :=
  rvars <- assign_rev name t (rev vars);; Ok (rev rvars).

(** What [Layer.__setattr__] does to the variable an attribute was bound
    to when the attribute is rebound to something else: the variable
    leaves the layer's weights. *)
Fixpoint remove_first (name : string) (vars : list tfVariable)
  : list tfVariable :=
  match vars with
  | [] => []
  | v :: rest =>
      if String.eqb (var_name v) name then rest
      else v :: remove_first name rest
  end.

Definition untrack (name : string) (vars : list tfVariable)
  : list tfVariable :=
  rev (remove_first name (rev vars)).

End KerasLayer.

(* ================================================================== *)
(** * [Conv2D], as far as the source relies on it *)

Module Conv2D.

(** What the attribute [kernel] is bound to: the variable ["kernel"]
    that [build] registers, or a plain tensor assigned afterwards. *)
Inductive kernel_binding : Type :=
| KernelVariable
| KernelTensor (k : tensor).

Record t : Type := mk {
  filters : nat;
  kernel_size : nat * nat;
  strides : nat * nat;
  conv_padding : padding;
  kernel_initializer : initializer;
  use_bias : bool;
  (** [None] until the layer is built; then the channel count of the
      input it was built on, which every later input must have *)
  input_spec : option nat;
  (** the layer's weights, in the order [weights] reports them *)
  variables : list tfVariable;
  kernel_attr : option kernel_binding
}.

(** [Conv2D(filters=..., kernel_size=..., strides=..., padding=...,
    kernel_initializer=..., use_bias=...)]: records the configuration.
    Whether the constructor rejects a configuration such as
    [filters=0] depends on the Keras release; the constructor of the
    model rejects nothing, and the states the theorems speak of hold
    [filters], [kernel_size] and [strides] non-zero. *)
Definition new (filters : nat) (kernel_size : nat * nat) (s : stride)
    (p : padding) (ini : initializer) (use_bias : bool) : t :=
  mk filters kernel_size (stride_pair s) p ini use_bias None [] None.

Definition set_variables (L : t) (vars : list tfVariable) : t :=
  mk (filters L) (kernel_size L) (strides L) (conv_padding L)
     (kernel_initializer L) (use_bias L) (input_spec L) vars (kernel_attr L).

(** [layer.kernel = k] for a tensor [k]: the attribute is rebound, and
    the variable it was bound to, if any, is no longer one of the
    layer's weights. *)
Definition set_kernel (L : t) (k : tensor) : t :=
  mk (filters L) (kernel_size L) (strides L) (conv_padding L)
     (kernel_initializer L) (use_bias L) (input_spec L)
     (match kernel_attr L with
      | Some KernelVariable => untrack "kernel" (variables L)
      | _ => variables L
      end)
     (Some (KernelTensor k)).

(** The value of [layer.kernel]. *)
Definition kernel (L : t) : result tensor :=
  match kernel_attr L with
  | None => Raise AttributeError
  | Some KernelVariable => read_var "kernel" (variables L)
  | Some (KernelTensor k) => Ok k
  end.

(** The check of an input against the [input_spec] of a built layer:
    rank 4, and the channel count the layer was built on. *)
Definition compatible (c : nat) (x : tensor) : bool :=
  match shape x with
  | [_; _; _; c'] => c' =? c
  | _ => false
  end.

Section Forward.
Context {FW : Framework}.

(** [build]: a rank-4 input fixes the kernel's shape
    [kh, kw, in_channels, filters]; the bias, if any, starts at 0. *)
Definition build (L : t) (x : tensor) : result t :=
  match shape x with
  | [_; _; _; c] =>
      let ks := [fst (kernel_size L); snd (kernel_size L); c; filters L] in
      let vars1 :=
        add_weight (variables L) "kernel" ks (kernel_initializer L) true in
      let vars2 :=
        if use_bias L
        then add_weight vars1 "bias" [filters L] Zeros true
        else vars1 in
      Ok (mk (filters L) (kernel_size L) (strides L) (conv_padding L)
            (kernel_initializer L) (use_bias L) (Some c) vars2
            (Some KernelVariable))
  | _ => Raise ValueError
  end.

Definition bias (L : t) : option tensor :=
  if use_bias L
  then option_map var_value (find_var "bias" (variables L))
  else None.

(** [layer(x)]: builds the layer on the first use and checks the input
    of a built layer, then convolves with the current value of the
    attribute [kernel]. *)
Definition call (L : t) (x : tensor) : result (tensor * t) :=
  L' <- match input_spec L with
        | None => build L x
        | Some c => if compatible c x then Ok L else Raise ValueError
        end;;
  k <- kernel L';;
  y <- conv2d (strides L') (conv_padding L') k (bias L') x;;
  Ok (y, L').

End Forward.

End Conv2D.

(* ================================================================== *)
(** * [class SpectralNormalization] *)

Module SpectralNormalization.

Record t : Type := mk {
  layer : Conv2D.t;
  n_power_iterations : Z;
  init : bool;
  (** the variables registered by [add_weight]; [self.u] is the one
      called ["u"] *)
  variables : list tfVariable
}.

Definition set_layer (self : t) (L : Conv2D.t) : t :=
  mk L (n_power_iterations self) (init self) (variables self).

Definition set_init (self : t) (b : bool) : t :=
  mk (layer self) (n_power_iterations self) b (variables self).

Definition set_variables (self : t) (vars : list tfVariable) : t :=
  mk (layer self) (n_power_iterations self) (init self) vars.

Definition set_n_power_iterations (self : t) (n : Z) : t :=
  mk (layer self) n (init self) (variables self).

(** [epsilon: float = 1e-12] *)
Definition default_epsilon : R := (1 / 1000000000000)%R.

(** [normalize_l2]:
    [return v / (tf.math.reduce_sum(v**2)**0.5 + epsilon)] *)
Definition normalize_l2 (v : tensor) (epsilon : R) : result tensor :=
  norm <- tf_add (pow_half (reduce_sum (pow_2 v))) (constant epsilon);;
  tf_div v norm.

Section Methods.
Context {FW : Framework}.

(** [__init__]: [u] is created here, by [add_weight], with shape
    [[self.layer.filters, 1]]. *)
Definition __init__ (layer : Conv2D.t) (n_power_iterations : Z) : t :=
  mk layer n_power_iterations false
     (add_weight [] "u" [Conv2D.filters layer; 1] RandomNormal false).

Definition u (self : t) : result tensor :=
  read_var "u" (variables self).

(** The body of the loop of [power_iteration]: it reads [self.u] and
    [W], and binds the locals [v], [u] and [spectral_norm]. *)
Definition power_iteration_body (self : t) (W : tensor)
  : result (tensor * tensor * tensor) :=
  self_u <- u self;;
  Wtu <- tf_matmul W self_u true false;;
  v <- normalize_l2 Wtu default_epsilon;;
  Wv <- tf_matmul W v false false;;
  u_new <- normalize_l2 Wv default_epsilon;;
  utW <- tf_matmul u_new W true false;;
  spectral_norm <- tf_matmul utW v false false;;
  Ok (v, u_new, spectral_norm).

(** [for _ in range(n)]: the locals are unbound before the first
    pass. *)
Fixpoint power_iteration_loop (n : nat) (self : t) (W : tensor)
    (locals : option (tensor * tensor * tensor))
  : result (option (tensor * tensor * tensor)) :=
  match n with
  | O => Ok locals
  | S n' =>
      locals' <- power_iteration_body self W;;
      power_iteration_loop n' self W (Some locals')
  end.

(** [power_iteration]: returns [(spectral_norm, u)]. *)
Definition power_iteration (self : t) (W : tensor)
  : result (tensor * tensor) :=
  locals <- power_iteration_loop
              (Z.to_nat (n_power_iterations self)) self W None;;
  match locals with
  | None => Raise UnboundLocalError
  | Some (_, u_new, spectral_norm) => Ok (spectral_norm, u_new)
  end.

(** [normalize_weights]: returns [W_sn] and the object after the
    call. *)
Definition normalize_weights (self : t) (training : bool)
  : result (tensor * t) :=
  w0 <- of_option IndexError (nth_error (Conv2D.variables (layer self)) 0);;
  filters <- of_option IndexError
               (nth_error (rev (shape (var_value w0))) 0);;
  W_orig <- read_var "kernel_orig" (Conv2D.variables (layer self));;
  W_res <- tf_reshape W_orig [Z.of_nat filters; (-1)%Z];;
  '(spectral_norm, u_new) <- power_iteration self W_res;;
  W_sn <- tf_div W_orig spectral_norm;;
  if training then
    vars <- assign_var "u" u_new (variables self);;
    Ok (W_sn, set_variables self vars)
  else
    Ok (W_sn, self).

(** The first branch of [call]: build the wrapped layer and
    introduce [kernel_orig]. *)
Definition initialize (self : t) (x : tensor) : result t :=
  '(_, L1) <- Conv2D.call (layer self) x;;
  k <- Conv2D.kernel L1;;
  let L2 :=
    Conv2D.set_variables L1
      (add_weight (Conv2D.variables L1) "kernel_orig" (shape k)
         GlorotUniform true) in
  let weights := get_weights (Conv2D.variables L2) in
  vars <-
    (if length weights =? 2 then
       w0 <- of_option IndexError (nth_error weights 0);;
       set_weights (Conv2D.variables L2) [w0; w0]
     else
       w0 <- of_option IndexError (nth_error weights 0);;
       w1 <- of_option IndexError (nth_error weights 1);;
       set_weights (Conv2D.variables L2) [w0; w1; w0]);;
  Ok (set_init (set_layer self (Conv2D.set_variables L2 vars)) true).

(** [call]: returns the output and the object after the call. *)
Definition call (self : t) (x : tensor) (training : bool)
  : result (tensor * t) :=
  self1 <- (if negb (init self) then initialize self x else Ok self);;
  '(W_sn, self2) <- normalize_weights self1 training;;
  let self3 := set_layer self2 (Conv2D.set_kernel (layer self2) W_sn) in
  '(output, L) <- Conv2D.call (layer self3) x;;
  Ok (output, set_layer self3 L).

End Methods.

End SpectralNormalization.

(* ================================================================== *)
(** * [class SelfAttentionModule] *)

Module SelfAttentionModule.

Record t : Type := mk {
  key_size : nat;
  (** holds the scalar variable [self_attention_gamma] *)
  variables : list tfVariable;
  f : SpectralNormalization.t;
  g : SpectralNormalization.t;
  h : SpectralNormalization.t;
  out : SpectralNormalization.t
}.

Section Methods.
Context {FW : Framework}.

Definition projection (filters : nat) (init_gain : R)
  : SpectralNormalization.t :=
  SpectralNormalization.__init__
    (Conv2D.new filters (1, 1) (StrideInt 1) Valid
       (Orthogonal init_gain) false) 1.

(** [__init__]: there is no [raise] in it, and no check of
    [key_size]; what becomes of a zero filter count is up to the
    constructor of [Conv2D]. *)
Definition __init__ (init_gain : R) (output_channels : nat)
    (key_size : option nat) : result t :=
  let ks := match key_size with
            | None => output_channels / 8
            | Some k => k
            end in
  Ok (mk ks
        (add_weight [] "self_attention_gamma" [] Zeros true)
        (projection ks init_gain)
        (projection ks init_gain)
        (projection (output_channels / 2) init_gain)
        (projection output_channels init_gain)).

Definition gamma (self : t) : result tensor :=
  read_var "self_attention_gamma" (variables self).

(** [compute_attention]: returns [o] and the object after the call. *)
Definition compute_attention (self : t) (x : tensor) (training : bool)
  : result (tensor * t) :=
  match shape x with
  | [_; hh; ww; c] =>
      '(fx0, f') <- SpectralNormalization.call (f self) x training;;
      fx <- tf_reshape fx0
              [(-1)%Z; Z.of_nat (hh * ww); Z.of_nat (key_size self)];;
      '(gx0, g') <- SpectralNormalization.call (g self) x training;;
      gx <- tf_reshape (max_pool gx0)
              [(-1)%Z; Z.of_nat ((hh * ww) / 4); Z.of_nat (key_size self)];;
      s <- tf_matmul fx gx false true;;
      let beta := softmax s in
      '(hx0, h') <- SpectralNormalization.call (h self) x training;;
      hx <- tf_reshape (max_pool hx0)
              [(-1)%Z; Z.of_nat ((hh * ww) / 4); Z.of_nat (c / 2)];;
      interim0 <- tf_matmul beta hx false false;;
      interim <- tf_reshape interim0
                   [(-1)%Z; Z.of_nat hh; Z.of_nat ww; Z.of_nat (c / 2)];;
      '(o, out') <- SpectralNormalization.call (out self) interim training;;
      Ok (o, mk (key_size self) (variables self) f' g' h' out')
  | _ => Raise ValueError
  end.

(** [call]: [y = self.gamma * o + x]. *)
Definition call (self : t) (x : tensor) (training : bool)
  : result (tensor * t) :=
  '(o, self') <- compute_attention self x training;;
  gm <- gamma self';;
  go <- tf_mul gm o;;
  y <- tf_add go x;;
  Ok (y, self').

End Methods.

End SelfAttentionModule.

(* ================================================================== *)
(** * [class ResidualBlock] *)

Module ResidualBlock.

Record t : Type := mk {
  first_block : bool;
  last_block : bool;
  process_identity : SpectralNormalization.t;
  conv_1 : SpectralNormalization.t;
  conv_2 : SpectralNormalization.t
}.

Section Methods.
Context {FW : Framework}.

Definition __init__ (init_gain : R) (s : stride) (output_channels : nat)
    (first_block last_block : bool) : t :=
  mk first_block last_block
     (SpectralNormalization.__init__
        (Conv2D.new output_channels (1, 1) s Valid
           (Orthogonal init_gain) true) 1)
     (SpectralNormalization.__init__
        (Conv2D.new output_channels (3, 3) s Same
           (Orthogonal init_gain) true) 1)
     (SpectralNormalization.__init__
        (Conv2D.new output_channels (3, 3) (StrideInt 1) Same
           (Orthogonal init_gain) true) 1).

(** The residual pipeline of [call], up to and including the
    down-sampling of [h]. *)
Definition pipeline (self : t) (x : tensor) (training : bool)
  : result (tensor * t) :=
  let h0 := if negb (first_block self) then relu x else x in
  '(h1, c1) <- SpectralNormalization.call (conv_1 self) h0 training;;
  let h2 := relu h1 in
  '(h3, c2) <- SpectralNormalization.call (conv_2 self) h2 training;;
  let h4 := if negb (last_block self) then average_pool h3 else h3 in
  Ok (h4, mk (first_block self) (last_block self)
             (process_identity self) c1 c2).

(** [call]: returns the output and the object after the call. *)
Definition call (self : t) (x : tensor) (training : bool)
  : result (tensor * t) :=
  '(h, self1) <- pipeline self x training;;
  '(x', self2) <-
    (if negb (shape_eqb (shape h) (shape x)) then
       let x1 :=
         if negb (last_block self1) then average_pool x else x in
       '(x2, p) <-
         SpectralNormalization.call (process_identity self1) x1 training;;
       Ok (x2, mk (first_block self1) (last_block self1) p
                  (conv_1 self1) (conv_2 self1))
     else Ok (x, self1));;
  y <- tf_add x' h;;
  Ok (y, self2).

End Methods.

End ResidualBlock.

(* ================================================================== *)
(** * Reductions over the two spatial axes *)

(** Element [(b, i, j, r)] of a tensor whose shape is [d0 :: d1 :: d2 :: rest],
    [r] running over the [k] elements of the trailing axes. *)
Definition spatial_item (d : list R) (d1 d2 k b i j r : nat) : R :=
  item d (((b * d1 + i) * d2 + j) * k + r).

Definition spatial_mean (d : list R) (d1 d2 k b r : nat) : R :=
  (sum_upto d1 (fun i => sum_upto d2 (fun j => spatial_item d d1 d2 k b i j r))
   / INR (d1 * d2))%R.

(** The population standard deviation, as [tf.math.reduce_std] computes
    it: the root of the mean squared deviation from the mean. *)
Definition spatial_std (d : list R) (d1 d2 k b r : nat) : R :=
  sqrt
    (sum_upto d1 (fun i => sum_upto d2 (fun j =>
       let e := (spatial_item d d1 d2 k b i j r - spatial_mean d d1 d2 k b r)%R in
       (e * e)%R))
     / INR (d1 * d2))%R.

Definition reduce_spatial (stat : list R -> nat -> nat -> nat -> nat -> nat -> R)
    (x : tensor) : result tensor :=
  match shape x with
  | d0 :: d1 :: d2 :: rest =>
      let k := size_of rest in
      Ok (mkTensor (d0 :: rest)
            (tabulate (size_of (d0 :: rest))
               (fun p => stat (data x) d1 d2 k (p / k) (p mod k))))
  | _ => Raise InvalidArgumentError
  end.

(** [tf.math.reduce_mean(x, axis=(1, 2))] *)
Definition reduce_mean_1_2 : tensor -> result tensor :=
  reduce_spatial spatial_mean.

(** [tf.math.reduce_std(x, axis=(1, 2))] *)
Definition reduce_std_1_2 : tensor -> result tensor :=
  reduce_spatial spatial_std.

(** [tf.expand_dims(t, axis)] for a non-negative [axis] *)
Definition expand_dims (t : tensor) (axis : nat) : result tensor :=
  if axis <=? length (shape t)
  then Ok (mkTensor (firstn axis (shape t) ++ 1 :: skipn axis (shape t)) (data t))
  else Raise InvalidArgumentError.

(* ================================================================== *)
(** * [class InstanceNormalization] *)

Module InstanceNormalization.

Record t : Type := mk {
  affine : bool;
  eps : R;
  (** [gamma] and [beta], present when [affine] *)
  variables : list tfVariable
}.

Section Methods.
Context {FW : Framework}.

Definition __init__ (filters : nat) (affine : bool) : t :=
  mk affine (1 / 1000000000000)%R
     (if affine then
        add_weight (add_weight [] "gamma" [1; filters] Ones true)
          "beta" [1; filters] Zeros true
      else []).

Definition gamma (self : t) : result tensor :=
  read_var "gamma" (variables self).

Definition beta (self : t) : result tensor :=
  read_var "beta" (variables self).

Definition call (self : t) (x : tensor) : result tensor :=
  m0 <- reduce_mean_1_2 x;;
  m1 <- expand_dims m0 1;;
  mean <- expand_dims m1 2;;
  s0 <- reduce_std_1_2 x;;
  s1 <- expand_dims s0 1;;
  std <- expand_dims s1 2;;
  centred <- tf_sub x mean;;
  denom <- tf_add std (constant (eps self));;
  x1 <- tf_div centred denom;;
  if affine self then
    gm <- gamma self;;
    bt <- beta self;;
    scaled <- tf_mul x1 gm;;
    tf_add scaled bt
  else Ok x1.

End Methods.

End InstanceNormalization.

(* ================================================================== *)
(** * Notions the statements are written with *)

(** The Euclidean norm of a vector. *)
Definition l2_norm (d : list R) : R :=
  sqrt (sum_list (map (fun x => (x * x)%R) d)).

(** What the specification asks of [normalize_l2]:
    [v / (sqrt(sum(v²)) + epsilon)]. *)
Definition l2_normalized (d : list R) (epsilon : R) : list R :=
  map (fun x => (x / (l2_norm d + epsilon))%R) d.

(** The variant with [epsilon] folded under the root,
    [v / sqrt(sum(v²) + epsilon)], which the specification rules out. *)
Definition l2_normalized_folded (d : list R) (epsilon : R) : list R :=
  map (fun x => (x / sqrt (sum_list (map (fun y => (y * y)%R) d) + epsilon))%R) d.

(** The product of a matrix (a rank-2 tensor) with a vector. *)
Definition mat_vec (W : tensor) (v : list R) : list R :=
  match shape W with
  | [m; n] =>
      tabulate m (fun i => sum_upto n (fun l => (item (data W) (i * n + l) * item v l)%R))
  | _ => []
  end.

(** [s] is the largest singular value of [W]: the greatest factor by
    which [W] stretches a vector, attained on some unit vector. *)
Definition largest_singular_value (W : tensor) (s : R) : Prop :=
  (forall v, length v = nth 1 (shape W) 0 ->
             (l2_norm (mat_vec W v) <= s * l2_norm v)%R)
  /\ (exists v, length v = nth 1 (shape W) 0
                /\ l2_norm v = 1%R /\ l2_norm (mat_vec W v) = s).

(** An instance to run [power_iteration] on: twenty power iterations
    asked for, [u = (3/5, 2)], and the matrix [diag(5, 2)]. *)
Definition diag_5_2 : tensor := mkTensor [2; 2] [5; 0; 0; 2]%R.

Definition sn_twenty : SpectralNormalization.t :=
  SpectralNormalization.mk
    (Conv2D.new 2 (1, 1) (StrideInt 1) Valid GlorotUniform true)
    20 false
    [mkVariable "u" (mkTensor [2; 1] [3 / 5; 2]%R) false].

(** ** The states of a [SpectralNormalization] object

    [fresh]: as the constructor leaves it when given a new [Conv2D] with
    non-zero filter count, kernel size and strides, and asked for at
    least one power iteration.
    [ready]: initialised, as the first branch of [call] and every later
    forward pass leave it.  The wrapped layer is built; the raw kernel
    [kernel_orig] has the shape of the kernel,
    [kernel_size + (channels, filters)], [channels] being the channel
    count the layer was built on; every weight of the layer (the kernel
    while it is one, the bias, [kernel_orig]) has [filters] as its last
    extent, which is what [normalize_weights] reads from [weights[0]];
    and [u] has one entry per filter. *)

Definition positive_config (L : Conv2D.t) : Prop :=
  Conv2D.filters L <> 0
  /\ fst (Conv2D.kernel_size L) <> 0 /\ snd (Conv2D.kernel_size L) <> 0
  /\ fst (Conv2D.strides L) <> 0 /\ snd (Conv2D.strides L) <> 0.

Definition last_extent (f : nat) (v : tfVariable) : Prop :=
  nth_error (rev (shape (var_value v))) 0 = Some f.

Definition fresh (self : SpectralNormalization.t) : Prop :=
  let L := SpectralNormalization.layer self in
  SpectralNormalization.init self = false
  /\ Conv2D.input_spec L = None
  /\ Conv2D.variables L = []
  /\ positive_config L
  /\ (1 <= SpectralNormalization.n_power_iterations self)%Z
  /\ exists u0,
       SpectralNormalization.u self = Ok u0
       /\ shape u0 = [Conv2D.filters L; 1]
       /\ well_shaped u0.

Definition ready (self : SpectralNormalization.t) : Prop :=
  let L := SpectralNormalization.layer self in
  SpectralNormalization.init self = true
  /\ positive_config L
  /\ (1 <= SpectralNormalization.n_power_iterations self)%Z
  /\ exists c W_orig u0,
       Conv2D.input_spec L = Some c
       /\ Forall (last_extent (Conv2D.filters L)) (Conv2D.variables L)
       /\ read_var "kernel_orig" (Conv2D.variables L) = Ok W_orig
       /\ shape W_orig
          = [fst (Conv2D.kernel_size L); snd (Conv2D.kernel_size L); c;
             Conv2D.filters L]
       /\ well_shaped W_orig
       /\ (forall bt, Conv2D.bias L = Some bt ->
                      shape bt = [Conv2D.filters L])
       /\ SpectralNormalization.u self = Ok u0
       /\ shape u0 = [Conv2D.filters L; 1]
       /\ well_shaped u0.

(** The object takes inputs with [channels] channels: it is fresh, or
    ready and built on that many. *)
Definition accepts (self : SpectralNormalization.t) (channels : nat) : Prop :=
  fresh self
  \/ (ready self
      /\ Conv2D.input_spec (SpectralNormalization.layer self) = Some channels).

(** Two states of one convolution: the configuration is the same. *)
Definition same_config (L' L : Conv2D.t) : Prop :=
  Conv2D.filters L' = Conv2D.filters L
  /\ Conv2D.kernel_size L' = Conv2D.kernel_size L
  /\ Conv2D.strides L' = Conv2D.strides L
  /\ Conv2D.conv_padding L' = Conv2D.conv_padding L.

(* ================================================================== *)
(** * Shapes of the stock layers' outputs

    The output extent of a convolution along one axis, for an input
    extent [n], a window [k] and a stride [s]. *)

Definition out_extent (p : padding) (n k s : nat) : nat :=
  match p with
  | Valid => if n <? k then 0 else (n - k) / s + 1
  | Same => (n + s - 1) / s
  end.

(** The shape of the output of a convolution layer on an input of shape
    [xs]. *)
Definition conv_output (L : Conv2D.t) (xs : list nat) : list nat :=
  match xs with
  | [nb; nh; nw; _] =>
      [nb;
       out_extent (Conv2D.conv_padding L) nh
         (fst (Conv2D.kernel_size L)) (fst (Conv2D.strides L));
       out_extent (Conv2D.conv_padding L) nw
         (snd (Conv2D.kernel_size L)) (snd (Conv2D.strides L));
       Conv2D.filters L]
  | _ => []
  end.

(** A framework is lawful when its layers return tensors of the shapes
    TensorFlow documents: NHWC convolution, 2x2 pooling with stride 2,
    shape-preserving ReLU and softmax.  The convolution is asked to
    return only on operands that fit: a rank-4 input, a kernel for its
    channel count, a bias with one entry per filter, non-zero strides,
    and neither the kernel nor the output empty. *)
Record lawful (FW : Framework) : Prop := {
  conv2d_shape :
    forall st p k b x nb nh nw nc kh kw nf,
      shape x = [nb; nh; nw; nc] -> shape k = [kh; kw; nc; nf] ->
      (forall bt, b = Some bt -> shape bt = [nf]) ->
      fst st <> 0 -> snd st <> 0 ->
      size_of [kh; kw; nc; nf] <> 0 ->
      size_of [nb; out_extent p nh kh (fst st);
               out_extent p nw kw (snd st); nf] <> 0 ->
      exists y,
        conv2d st p k b x = Ok y
        /\ shape y
           = [nb; out_extent p nh kh (fst st); out_extent p nw kw (snd st);
              nf];
  relu_shape : forall x, shape (relu x) = shape x;
  max_pool_shape :
    forall x nb nh nw nc,
      shape x = [nb; nh; nw; nc] ->
      shape (max_pool x) = [nb; nh / 2; nw / 2; nc];
  average_pool_shape :
    forall x nb nh nw nc,
      shape x = [nb; nh; nw; nc] ->
      shape (average_pool x) = [nb; nh / 2; nw / 2; nc];
  softmax_shape : forall x, shape (softmax x) = shape x
}.

(* ================================================================== *)
(** * A framework to run the layers on

    Direct implementations of the stock kernels on NHWC tensors, and
    initialisers that draw 1/4, 2/4, 3/4, ...  The theorems below hold
    for every [Framework]; this one serves to run the layers on concrete
    inputs. *)

Definition at4 (t : tensor) (b i j c : nat) : R :=
  item (data t) (ravel (shape t) [b; i; j; c]).

Definition pad_before (p : padding) (n k s : nat) : nat :=
  match p with
  | Valid => 0
  | Same => ((out_extent Same n k s - 1) * s + k - n) / 2
  end.

Definition example_conv2d (st : nat * nat) (p : padding) (kernel : tensor)
    (bias : option tensor) (x : tensor) : result tensor :=
  match shape x, shape kernel with
  | [nb; nh; nw; nc], [kh; kw; ci; nf] =>
      let oh := out_extent p nh kh (fst st) in
      let ow := out_extent p nw kw (snd st) in
      let pt := pad_before p nh kh (fst st) in
      let pl := pad_before p nw kw (snd st) in
      if negb (nc =? ci) || (fst st =? 0) || (snd st =? 0)
         || (oh =? 0) || (ow =? 0)
      then Raise ValueError
      else
      Ok (mkTensor [nb; oh; ow; nf]
        (tabulate (size_of [nb; oh; ow; nf])
           (fun q =>
              match unravel [nb; oh; ow; nf] q with
              | [b; i; j; o] =>
                  Rplus
                    (match bias with
                     | Some bt => item (data bt) o
                     | None => 0%R
                     end)
                    (sum_upto kh (fun di => sum_upto kw (fun dj =>
                       sum_upto nc (fun c =>
                         let r := i * fst st + di in
                         let s := j * snd st + dj in
                         if (pt <=? r) && (r - pt <? nh)
                            && (pl <=? s) && (s - pl <? nw)
                         then (at4 x b (r - pt) (s - pl) c
                               * at4 kernel di dj c o)%R
                         else 0%R))))
              | _ => 0%R
              end)))
  | _, _ => Raise ValueError
  end.

Definition example_pool (combine : R -> R -> R -> R -> R) (x : tensor)
  : tensor :=
  match shape x with
  | [nb; nh; nw; nc] =>
      let s := [nb; nh / 2; nw / 2; nc] in
      mkTensor s
        (tabulate (size_of s)
           (fun q =>
              match unravel s q with
              | [b; i; j; c] =>
                  combine (at4 x b (2 * i) (2 * j) c)
                          (at4 x b (2 * i) (2 * j + 1) c)
                          (at4 x b (2 * i + 1) (2 * j) c)
                          (at4 x b (2 * i + 1) (2 * j + 1) c)
              | _ => 0%R
              end))
  | _ => x
  end.

Definition example_softmax (x : tensor) : tensor :=
  match shape x with
  | [nb; m; n] =>
      mkTensor [nb; m; n]
        (tabulate (size_of [nb; m; n])
           (fun q =>
              Rdiv (exp (item (data x) q))
                (sum_upto n (fun j => exp (item (data x) (q / n * n + j))))))
  | _ => x
  end.

Definition example_framework : Framework := {|
  random_value := fun _ _ i => Rdiv (INR (i + 1)) 4;
  conv2d := example_conv2d;
  relu := tf_map (Rmax 0);
  max_pool := example_pool (fun a b c d => Rmax (Rmax a b) (Rmax c d));
  average_pool := example_pool (fun a b c d => ((a + b + c + d) / 4)%R);
  softmax := example_softmax
|}.

(** ** Objects to run the methods on *)

Definition kernel_5_2 : tensor := mkTensor [1; 1; 1; 2] [5; 2]%R.

(** An object as a forward pass leaves it: two filters and a bias,
    built on one channel; the weights are the bias and [kernel_orig],
    and the attribute [kernel] holds a tensor. *)
Definition sn_ready : SpectralNormalization.t :=
  SpectralNormalization.mk
    (Conv2D.mk 2 (1, 1) (1, 1) Valid GlorotUniform true (Some 1)
       [mkVariable "bias" (mkTensor [2] [0; 0]%R) true;
        mkVariable "kernel_orig" kernel_5_2 true]
       (Some (Conv2D.KernelTensor kernel_5_2)))
    1 true
    [mkVariable "u" (mkTensor [2; 1] [3 / 5; 2]%R) false].

(** An object as the constructor leaves it. *)
Definition sn_new : SpectralNormalization.t :=
  SpectralNormalization.__init__ (FW := example_framework)
    (Conv2D.new 2 (1, 1) (StrideInt 1) Valid GlorotUniform true) 1.

Definition pixel : tensor := mkTensor [1; 1; 1; 1] [1%R].

(** ** Readings of the specification that the code is compared with *)

(** "[u] is initialised lazily, on first use, not before the first
    forward pass": the object the constructor returns has no [u], and
    the first forward pass gives it one of length [filters]. *)
Definition u_initialized_on_first_use {FW : Framework}
    (layer : Conv2D.t) (n : Z) (x : tensor) (training : bool) : Prop :=
  let self := SpectralNormalization.__init__ layer n in
  SpectralNormalization.u self = Raise AttributeError
  /\ forall o self',
       SpectralNormalization.call self x training = Ok (o, self') ->
       exists u0,
         SpectralNormalization.u self' = Ok u0
         /\ shape u0 = [Conv2D.filters layer; 1].

(** "On every initialised instance, [normalize_weights] overwrites [u]
    with the newly computed estimate if and only if [training] is true":
    the call returns, and [u] afterwards is the estimate that
    [power_iteration] returns when training, and what it was when not. *)
Definition u_overwritten_iff_training (self : SpectralNormalization.t)
  : Prop :=
  SpectralNormalization.init self = true ->
  forall training,
    exists W_sn self',
      SpectralNormalization.normalize_weights self training = Ok (W_sn, self')
      /\ if training
         then exists W_res spectral_norm u_new,
                SpectralNormalization.power_iteration self W_res
                = Ok (spectral_norm, u_new)
                /\ SpectralNormalization.u self' = Ok u_new
         else SpectralNormalization.u self' = SpectralNormalization.u self.

(** ** States of a [SelfAttentionModule]

    A projection is a 1x1 convolution with stride 1 and no padding that
    takes inputs with a given channel count; the module is in order for
    [channels] input channels when its four projections have the filter
    counts the constructor gives them for [output_channels = channels],
    [f], [g] and [h] taking the input and [out] what [h] yields. *)

Definition projection_ok (s : SpectralNormalization.t) (channels filters : nat)
  : Prop :=
  accepts s channels
  /\ Conv2D.filters (SpectralNormalization.layer s) = filters
  /\ Conv2D.kernel_size (SpectralNormalization.layer s) = (1, 1)
  /\ Conv2D.strides (SpectralNormalization.layer s) = (1, 1)
  /\ Conv2D.conv_padding (SpectralNormalization.layer s) = Valid.

Definition attention_ok (self : SelfAttentionModule.t) (channels : nat) : Prop :=
  projection_ok (SelfAttentionModule.f self) channels
    (SelfAttentionModule.key_size self)
  /\ projection_ok (SelfAttentionModule.g self) channels
       (SelfAttentionModule.key_size self)
  /\ projection_ok (SelfAttentionModule.h self) channels (channels / 2)
  /\ projection_ok (SelfAttentionModule.out self) (channels / 2) channels.

(** A module and an input to run it on: two channels, one key channel,
    a 2x2 image. *)
Definition image_2x2x2 : tensor :=
  mkTensor [1; 2; 2; 2] [1; 2; 3; 4; 5; 6; 7; 8]%R.

Definition attention_new : SelfAttentionModule.t :=
  SelfAttentionModule.mk 1
    (add_weight (FW := example_framework) []
       "self_attention_gamma" [] Zeros true)
    (SelfAttentionModule.projection (FW := example_framework) 1 1)
    (SelfAttentionModule.projection (FW := example_framework) 1 1)
    (SelfAttentionModule.projection (FW := example_framework) 1 1)
    (SelfAttentionModule.projection (FW := example_framework) 2 1).

(** ** Statistics over the spatial axes, by element

    The mean and the (population) standard deviation of channel [c] of
    sample [b] of an NHWC tensor, written with the four-index accessor:
    what "per sample, per channel, over height and width" means. *)

Definition channel_mean (x : tensor) (nh nw b c : nat) : R :=
  Rdiv
    (sum_upto nh (fun i => sum_upto nw (fun j => at4 x b i j c)))
    (INR (nh * nw)).

Definition channel_std (x : tensor) (nh nw b c : nat) : R :=
  sqrt
    (Rdiv
       (sum_upto nh (fun i => sum_upto nw (fun j =>
          Rmult (Rminus (at4 x b i j c) (channel_mean x nh nw b c))
                (Rminus (at4 x b i j c) (channel_mean x nh nw b c)))))
       (INR (nh * nw))).

(** ** States of a [ResidualBlock]

    The block is in order for inputs with [channels] channels when its
    convolutions take what [call] hands them: [conv_1] and the identity
    convolution the input, [conv_2] the output of [conv_1]. *)
Definition block_ok (self : ResidualBlock.t) (channels : nat) : Prop :=
  accepts (ResidualBlock.conv_1 self) channels
  /\ accepts (ResidualBlock.conv_2 self)
       (Conv2D.filters (SpectralNormalization.layer (ResidualBlock.conv_1 self)))
  /\ accepts (ResidualBlock.process_identity self) channels.

(** Objects to run the block and the instance normalisation on. *)
Definition block_new : ResidualBlock.t :=
  ResidualBlock.__init__ (FW := example_framework) 1 (StrideInt 1) 2 false false.

Definition image_2x2x1 : tensor := mkTensor [1; 2; 2; 1] [1; 2; 3; 4]%R.

(** The configuration the constructor of [ResidualBlock] gives its
    convolutions when the stride is 1. *)
Definition conv_config (s : SpectralNormalization.t) (filters : nat)
    (ks st : nat * nat) (p : padding) : Prop :=
  Conv2D.filters (SpectralNormalization.layer s) = filters
  /\ Conv2D.kernel_size (SpectralNormalization.layer s) = ks
  /\ Conv2D.strides (SpectralNormalization.layer s) = st
  /\ Conv2D.conv_padding (SpectralNormalization.layer s) = p.

Definition block_stride_1 (self : ResidualBlock.t)
    (channels output_channels : nat) : Prop :=
  block_ok self channels
  /\ conv_config (ResidualBlock.conv_1 self) output_channels (3, 3) (1, 1) Same
  /\ conv_config (ResidualBlock.conv_2 self) output_channels (3, 3) (1, 1) Same
  /\ conv_config (ResidualBlock.process_identity self) output_channels
       (1, 1) (1, 1) Valid.

Definition norm_plain : InstanceNormalization.t :=
  InstanceNormalization.__init__ (FW := example_framework) 1 false.

Definition norm_affine : InstanceNormalization.t :=
  InstanceNormalization.__init__ (FW := example_framework) 1 true.

(* ================================================================== *)
(** * Facts about lists of reals and row-major indices *)

Unset Implicit Arguments.

Lemma tabulate_length (n : nat) (f : nat -> R) : length (tabulate n f) = n.
Proof. unfold tabulate. now rewrite length_map, length_seq. Qed.

Lemma item_tabulate (n : nat) (f : nat -> R) (i : nat) :
  i < n -> item (tabulate n f) i = f i.
Proof.
  intros Hi. unfold item, tabulate.
  rewrite (nth_indep _ 0%R (f 0)) by now rewrite length_map, length_seq.
  rewrite map_nth, seq_nth; auto.
Qed.

Lemma tabulate_ext (n : nat) (f g : nat -> R) :
  (forall i, i < n -> f i = g i) -> tabulate n f = tabulate n g.
Proof.
  intros H. unfold tabulate. apply map_ext_in.
  intros i Hi. apply in_seq in Hi. apply H. lia.
Qed.

Lemma tabulate_map (f : R -> R) (d : list R) :
  tabulate (length d) (fun i => f (item d i)) = map f d.
Proof.
  apply (nth_ext _ _ 0%R (f 0%R)).
  - now rewrite tabulate_length, length_map.
  - intros i Hi. rewrite tabulate_length in Hi.
    fold (item (tabulate (length d) (fun i => f (item d i))) i).
    rewrite item_tabulate by assumption.
    now rewrite map_nth.
Qed.

Lemma tabulate_item (d : list R) : tabulate (length d) (item d) = d.
Proof.
  exact (eq_trans (tabulate_map (fun x => x) d) (map_id d)).
Qed.

Lemma size_of_app (a b : list nat) :
  size_of (a ++ b) = size_of a * size_of b.
Proof.
  induction a as [|x a IH]; simpl.
  - lia.
  - rewrite IH. lia.
Qed.

Lemma unravel_length (s : list nat) : forall i, length (unravel s i) = length s.
Proof. induction s as [|d s IH]; intros i; simpl; auto. Qed.

Lemma ravel_unravel (s : list nat) :
  forall i, i < size_of s -> ravel s (unravel s i) = i.
Proof.
  induction s as [|d s IH]; intros i Hi; simpl in *.
  - lia.
  - assert (Hp : size_of s <> 0) by (intros E; rewrite E in Hi; lia).
    rewrite IH by (apply Nat.mod_upper_bound; assumption).
    pose proof (Nat.div_mod_eq i (size_of s)). lia.
Qed.

Lemma unravel_ravel (s : list nat) :
  forall idx, Forall2 lt idx s -> unravel s (ravel s idx) = idx.
Proof.
  induction s as [|d s IH]; intros idx H; inversion H; subst; simpl.
  - reflexivity.
  - match goal with Hl : Forall2 lt ?l s |- _ => rename Hl into Hrest end.
    assert (Hr : ravel s l < size_of s).
    { clear - Hrest. induction Hrest; simpl; [lia | nia]. }
    rewrite Nat.div_add_l by lia.
    rewrite (Nat.div_small _ _ Hr), Nat.add_0_r.
    rewrite Nat.add_comm, Nat.Div0.mod_add, (Nat.mod_small _ _ Hr).
    now rewrite IH.
Qed.

Lemma unravel_in_range (s : list nat) :
  forall i, i < size_of s -> Forall2 lt (unravel s i) s.
Proof.
  induction s as [|d s IH]; intros i Hi; simpl in *.
  - constructor.
  - assert (Hp : size_of s <> 0) by (intros E; rewrite E in Hi; lia).
    constructor.
    + apply Nat.Div0.div_lt_upper_bound. lia.
    + apply IH. apply Nat.mod_upper_bound. assumption.
Qed.

Lemma clamp_index_in_range (s idx : list nat) :
  Forall2 lt idx s -> clamp_index s idx = idx.
Proof.
  induction 1 as [|j d idx s Hj _ IH]; simpl.
  - reflexivity.
  - rewrite IH. destruct (Nat.eqb_spec d 1); [f_equal; lia | reflexivity].
Qed.

Lemma clamp_index_ones (s : list nat) :
  Forall (eq 1) s -> forall idx, ravel s (clamp_index s idx) = 0.
Proof.
  induction 1 as [|d s Hd _ IH]; intros idx; simpl.
  - reflexivity.
  - destruct idx as [|j idx]; simpl; [reflexivity|].
    subst d. simpl. apply IH.
Qed.

(** Broadcasting a tensor to its own shape reads it in place. *)
Lemma bcast_item_same (t : tensor) (i : nat) :
  i < size_of (shape t) -> bcast_item (shape t) t i = item (data t) i.
Proof.
  intros Hi. unfold bcast_item, bcast_index.
  rewrite unravel_length, Nat.sub_diag. simpl skipn.
  rewrite clamp_index_in_range by (apply unravel_in_range; assumption).
  now rewrite ravel_unravel.
Qed.

(** Broadcasting a tensor with a single element reads that element. *)
Lemma bcast_item_ones (out : list nat) (t : tensor) (i : nat) :
  Forall (eq 1) (shape t) -> bcast_item out t i = item (data t) 0.
Proof.
  intros H. unfold bcast_item, bcast_index.
  now rewrite clamp_index_ones.
Qed.

Lemma broadcast_rev_ones (a : list nat) :
  forall b, Forall (eq 1) b -> length b <= length a ->
            broadcast_rev a b = Some a.
Proof.
  induction a as [|x a IH]; intros b Hb Hl.
  - destruct b; simpl in *; [reflexivity | lia].
  - destruct b as [|y b]; simpl in *; [reflexivity|].
    inversion Hb; subst.
    rewrite IH by (auto; lia). simpl.
    destruct (Nat.eqb_spec x 1); [reflexivity|].
    reflexivity.
Qed.

Lemma broadcast_rev_same (a : list nat) : broadcast_rev a a = Some a.
Proof.
  induction a as [|x a IH]; simpl; [reflexivity|].
  now rewrite Nat.eqb_refl, IH.
Qed.

Lemma broadcast_shapes_ones (a b : list nat) :
  Forall (eq 1) b -> length b <= length a -> broadcast_shapes a b = Some a.
Proof.
  intros Hb Hl. unfold broadcast_shapes.
  rewrite broadcast_rev_ones.
  - simpl. now rewrite rev_involutive.
  - apply Forall_rev. assumption.
  - now rewrite !length_rev.
Qed.

Lemma broadcast_shapes_same (a : list nat) : broadcast_shapes a a = Some a.
Proof.
  unfold broadcast_shapes. rewrite broadcast_rev_same. simpl.
  now rewrite rev_involutive.
Qed.

(** An operation between a well-shaped tensor and a one-element tensor
    of no greater rank applies the operation with that element
    everywhere. *)
Lemma elementwise_ones_r (f : R -> R -> R) (a b : tensor) :
  well_shaped a -> Forall (eq 1) (shape b) ->
  length (shape b) <= length (shape a) ->
  elementwise f a b
  = Ok (mkTensor (shape a) (map (fun x => f x (item (data b) 0)) (data a))).
Proof.
  intros Ha Hb Hl. unfold elementwise.
  rewrite broadcast_shapes_ones by assumption.
  do 2 f_equal.
  rewrite <- tabulate_map, Ha.
  apply tabulate_ext. intros i Hi.
  now rewrite bcast_item_same, bcast_item_ones.
Qed.


(** Two tensors of one shape always combine, into a tensor of that
    shape. *)
Lemma elementwise_same_shape (f : R -> R -> R) (a b : tensor) :
  shape b = shape a ->
  exists y, elementwise f a b = Ok y /\ shape y = shape a.
Proof.
  intros Hs. unfold elementwise. rewrite Hs, broadcast_shapes_same.
  eexists. split; reflexivity.
Qed.

(* ================================================================== *)
(** * [normalize_l2] *)

Local Open Scope R_scope.

Lemma default_epsilon_pos : 0 < SpectralNormalization.default_epsilon.
Proof. unfold SpectralNormalization.default_epsilon. lra. Qed.

Lemma l2_norm_nonneg (d : list R) : 0 <= l2_norm d.
Proof. apply sqrt_pos. Qed.

(** [normalize_l2] never raises: it scales every element by the same
    factor. *)
Lemma normalize_l2_value (v : tensor) (epsilon : R) :
  well_shaped v ->
  SpectralNormalization.normalize_l2 v epsilon
  = Ok (mkTensor (shape v) (l2_normalized (data v) epsilon)).
Proof.
  intros Hv. unfold SpectralNormalization.normalize_l2, tf_add, tf_div.
  rewrite elementwise_ones_r; [| reflexivity | constructor | apply Nat.le_refl].
  simpl bind.
  rewrite elementwise_ones_r; [| assumption | constructor | apply Nat.le_0_l].
  reflexivity.
Qed.

(** C8.  For every well-shaped [v], [normalize_l2(v)] is exactly
    [v / (sqrt(sum(v²)) + epsilon)] with [epsilon = 1e-12] added to the
    norm; the divisor is positive, so nothing is divided by zero; and the
    all-zero vector is returned as it is. *)
Theorem normalize_l2_spec (v : tensor) :
  well_shaped v ->
  SpectralNormalization.normalize_l2 v SpectralNormalization.default_epsilon
  = Ok (mkTensor (shape v)
          (map (fun x => x / (sqrt (sum_list (map (fun y => y * y) (data v)))
                              + 1 / 1000000000000))
               (data v)))
  /\ 0 < sqrt (sum_list (map (fun y => y * y) (data v))) + 1 / 1000000000000
  /\ (Forall (eq 0) (data v) ->
      SpectralNormalization.normalize_l2 v SpectralNormalization.default_epsilon
      = Ok v).
Proof.
  intros Hv. rewrite (normalize_l2_value _ _ Hv).
  split; [reflexivity | split].
  - pose proof (sqrt_pos (sum_list (map (fun y => y * y) (data v)))). lra.
  - intros Hz. destruct v as [s d]. simpl in *. do 2 f_equal.
    unfold l2_normalized.
    transitivity (map (fun x : R => x) d); [|apply map_id].
    apply map_ext_in.
    intros x Hx. rewrite Forall_forall in Hz.
    rewrite <- (Hz x Hx). unfold Rdiv. ring.
Qed.

Lemma normalize_l2_spec_witness :
  SpectralNormalization.normalize_l2 (mkTensor [2; 1]%nat [0; 0])
    SpectralNormalization.default_epsilon
  = Ok (mkTensor [2; 1]%nat [0; 0]).
Proof.
  apply (normalize_l2_spec (mkTensor [2; 1]%nat [0; 0])).
  - reflexivity.
  - repeat constructor.
Defined.

(** Folding [epsilon] under the root is a different function. *)
Lemma normalize_l2_not_folded :
  l2_normalized [1] SpectralNormalization.default_epsilon
  <> l2_normalized_folded [1] SpectralNormalization.default_epsilon.
Proof.
  unfold l2_normalized, l2_normalized_folded, l2_norm,
    SpectralNormalization.default_epsilon. simpl.
  intros H. injection H as H.
  replace (1 * 1 + 0) with 1 in H by ring.
  rewrite sqrt_1 in H.
  set (e := 1 / 1000000000000) in *.
  assert (He : 0 < e) by (unfold e; lra).
  assert (Hs : sqrt (1 + e) * sqrt (1 + e) = 1 + e) by (apply sqrt_def; lra).
  assert (Hp : 0 < sqrt (1 + e)) by (apply sqrt_lt_R0; lra).
  apply (f_equal (fun z => z * (1 + e) * sqrt (1 + e))) in H.
  field_simplify in H; try lra.
  nra.
Qed.

(* ================================================================== *)
(** * [power_iteration] *)

Local Close Scope R_scope.

Section PowerIteration.

Variable self : SpectralNormalization.t.
Variable W : tensor.

Lemma power_iteration_body_n (n : Z) :
  SpectralNormalization.power_iteration_body
    (SpectralNormalization.set_n_power_iterations self n) W
  = SpectralNormalization.power_iteration_body self W.
Proof. reflexivity. Qed.

(** However many passes the loop makes, the locals it leaves are those
    of a single pass: each pass starts again from [self.u]. *)
Lemma power_iteration_loop_succ (k : nat) :
  forall locals,
    SpectralNormalization.power_iteration_loop (S k) self W locals
    = (l <- SpectralNormalization.power_iteration_body self W;; Ok (Some l)).
Proof.
  induction k as [|k IH]; intros locals.
  - reflexivity.
  - change (SpectralNormalization.power_iteration_loop (S (S k)) self W locals)
      with (l <- SpectralNormalization.power_iteration_body self W;;
            SpectralNormalization.power_iteration_loop (S k) self W (Some l)).
    destruct (SpectralNormalization.power_iteration_body self W) as [l|e] eqn:E;
      unfold bind; [|reflexivity].
    rewrite IH. reflexivity.
Qed.

End PowerIteration.

(** C2.  For every instance and every matrix [W], [power_iteration]
    returns for every [n_power_iterations >= 1] the pair it returns for
    [n_power_iterations = 1]. *)
Theorem power_iteration_count_irrelevant
    (self : SpectralNormalization.t) (W : tensor) (n : Z) :
  (1 <= n)%Z ->
  SpectralNormalization.power_iteration
    (SpectralNormalization.set_n_power_iterations self n) W
  = SpectralNormalization.power_iteration
      (SpectralNormalization.set_n_power_iterations self 1) W.
Proof.
  intros Hn. unfold SpectralNormalization.power_iteration. simpl.
  destruct (Z.to_nat n) as [|k] eqn:E; [lia|].
  change (Pos.to_nat 1) with 1.
  rewrite !power_iteration_loop_succ.
  reflexivity.
Qed.

Lemma power_iteration_count_irrelevant_witness :
  SpectralNormalization.power_iteration
    (SpectralNormalization.set_n_power_iterations sn_twenty 20) diag_5_2
  = SpectralNormalization.power_iteration
      (SpectralNormalization.set_n_power_iterations sn_twenty 1) diag_5_2.
Proof.
  apply (power_iteration_count_irrelevant sn_twenty diag_5_2 20). lia.
Defined.

(* ================================================================== *)
(** * [power_iteration] on [diag(5, 2)] *)

Local Open Scope R_scope.

(** Two tensors of one shape are equal when their elements are. *)
Ltac tensor_values :=
  match goal with
  | |- Ok (mkTensor ?s _) = Ok (mkTensor ?s _) =>
      apply (f_equal (fun z => Ok (mkTensor s z)))
  end;
  repeat match goal with
         | |- (_ :: _) = (_ :: _) => apply f_equal2
         | |- [] = [] => reflexivity
         end.

Lemma normalize_l2_pair (s : list nat) (a b n epsilon : R) :
  size_of s = 2%nat -> 0 <= n -> a * a + b * b = n * n ->
  SpectralNormalization.normalize_l2 (mkTensor s [a; b]) epsilon
  = Ok (mkTensor s [a / (n + epsilon); b / (n + epsilon)]).
Proof.
  intros Hs Hn Hab.
  rewrite normalize_l2_value by (unfold well_shaped; simpl; congruence).
  unfold l2_normalized, l2_norm. simpl.
  replace (a * a + (b * b + 0)) with (n * n) by lra.
  now rewrite sqrt_square.
Qed.

Lemma diag_5_2_largest_singular_value : largest_singular_value diag_5_2 5.
Proof.
  split.
  - intros v Hv. simpl in Hv.
    destruct v as [|a [|b [|c v]]]; try discriminate.
    unfold l2_norm, mat_vec, sum_upto, item. simpl.
    assert (H5 : sqrt 25 = 5)
      by (replace 25 with (5 * 5) by lra; apply sqrt_square; lra).
    apply Rle_trans with (sqrt (25 * (a * a + (b * b + 0)))).
    + apply sqrt_le_1_alt. nra.
    + rewrite sqrt_mult_alt by lra. rewrite H5. lra.
  - exists [1; 0]. repeat split.
    + unfold l2_norm. simpl.
      replace (1 * 1 + (0 * 0 + 0)) with 1 by lra. apply sqrt_1.
    + unfold l2_norm, mat_vec, sum_upto, item. simpl.
      replace (_ + _) with (5 * 5) by lra.
      apply sqrt_square. lra.
Qed.

(** C1, at a concrete input.  With twenty iterations asked for,
    [power_iteration] on [diag(5, 2)] from [u = (3/5, 2)] returns an
    estimate below 4, while the largest singular value is 5: the twenty
    passes did the work of one. *)
Theorem power_iteration_twenty_passes_miss :
  largest_singular_value diag_5_2 5
  /\ exists sigma u_new,
       SpectralNormalization.power_iteration sn_twenty diag_5_2
       = Ok (mkTensor [1; 1]%nat [sigma], u_new)
       /\ sigma < 4
       /\ 1 / 1000 < Rabs (sigma - 5).
Proof.
  split; [exact diag_5_2_largest_singular_value|].
  set (e := SpectralNormalization.default_epsilon).
  assert (He : 0 < e) by exact default_epsilon_pos.
  assert (He1 : e < 1) by (unfold e, SpectralNormalization.default_epsilon; lra).
  set (d := 5 + e).
  set (c := 17 / d + e).
  assert (Hd : 5 < d) by (unfold d; lra).
  assert (Hdc : 0 < 17 / d) by (apply Rdiv_lt_0_compat; lra).
  assert (Hc : 0 < c) by (unfold c; lra).
  exists (289 / (d * d * c)), (mkTensor [2; 1]%nat [15 / d / c; 8 / d / c]).
  split; [|split].
  - unfold SpectralNormalization.power_iteration.
    change (Z.to_nat (SpectralNormalization.n_power_iterations sn_twenty))
      with 20%nat.
    rewrite power_iteration_loop_succ.
    unfold SpectralNormalization.power_iteration_body.
    change (SpectralNormalization.u sn_twenty)
      with (Ok (mkTensor [2; 1]%nat [3 / 5; 2])).
    cbn [bind].
    replace (tf_matmul diag_5_2 (mkTensor [2; 1]%nat [3 / 5; 2]) true false)
      with (Ok (mkTensor [2; 1]%nat [3; 4]))
      by (cbv -[Rplus Rmult Rdiv Rinv Rminus sqrt IZR]; tensor_values; lra).
    cbn [bind].
    rewrite (normalize_l2_pair [2; 1]%nat 3 4 5) by (try reflexivity; lra).
    fold e. fold d. cbn [bind].
    replace (tf_matmul diag_5_2 (mkTensor [2; 1]%nat [3 / d; 4 / d]) false false)
      with (Ok (mkTensor [2; 1]%nat [15 / d; 8 / d]))
      by (cbv -[Rplus Rmult Rdiv Rinv Rminus sqrt IZR d];
          tensor_values; field; lra).
    cbn [bind].
    rewrite (normalize_l2_pair [2; 1]%nat (15 / d) (8 / d) (17 / d))
      by (try reflexivity; try lra; field; lra).
    fold e. fold c. cbn [bind].
    replace (tf_matmul (mkTensor [2; 1]%nat [15 / d / c; 8 / d / c])
               diag_5_2 true false)
      with (Ok (mkTensor [1; 2]%nat [5 * (15 / d / c); 2 * (8 / d / c)]))
      by (cbv -[Rplus Rmult Rdiv Rinv Rminus sqrt IZR d c];
          tensor_values; lra).
    cbn [bind].
    replace (tf_matmul
               (mkTensor [1; 2]%nat [5 * (15 / d / c); 2 * (8 / d / c)])
               (mkTensor [2; 1]%nat [3 / d; 4 / d]) false false)
      with (Ok (mkTensor [1; 1]%nat [289 / (d * d * c)]))
      by (cbv -[Rplus Rmult Rdiv Rinv Rminus sqrt IZR d c];
          tensor_values; field; lra).
    reflexivity.
  - assert (Hden : 85 < d * d * c).
    { unfold c. replace (d * d * (17 / d + e)) with (d * (17 + e * d))
        by (field; lra). nra. }
    apply (Rmult_lt_reg_r (d * d * c)); [lra|].
    unfold Rdiv. rewrite Rmult_assoc, Rinv_l by lra. lra.
  - assert (Hden : 85 < d * d * c).
    { unfold c. replace (d * d * (17 / d + e)) with (d * (17 + e * d))
        by (field; lra). nra. }
    assert (Hs : 289 / (d * d * c) < 4).
    { apply (Rmult_lt_reg_r (d * d * c)); [lra|].
      unfold Rdiv. rewrite Rmult_assoc, Rinv_l by lra. lra. }
    rewrite Rabs_left by lra. lra.
Qed.

Local Close Scope R_scope.

(* ================================================================== *)
(** * Shapes along [power_iteration] and [normalize_weights] *)

Lemma shape_eqb_refl (s : list nat) : shape_eqb s s = true.
Proof. unfold shape_eqb. destruct (list_eq_dec Nat.eq_dec s s); congruence. Qed.

Lemma shape_eqb_eq (a b : list nat) : shape_eqb a b = true <-> a = b.
Proof.
  unfold shape_eqb. destruct (list_eq_dec Nat.eq_dec a b); split; congruence.
Qed.

Lemma tf_matmul_rank2 (a b : tensor) (ta tb : bool) (ra ca rb cb : nat) :
  shape a = [ra; ca] -> shape b = [rb; cb] ->
  (if ta then ra else ca) = (if tb then cb else rb) ->
  exists t,
    tf_matmul a b ta tb = Ok t
    /\ shape t = [if ta then ca else ra; if tb then rb else cb]
    /\ well_shaped t.
Proof.
  intros Ha Hb Hk. unfold tf_matmul. rewrite Ha, Hb. simpl.
  rewrite Hk, Nat.eqb_refl. simpl.
  eexists. split; [reflexivity|]. split; [reflexivity|].
  unfold well_shaped. simpl. apply tabulate_length.
Qed.

Lemma normalize_l2_shape (v : tensor) (epsilon : R) :
  well_shaped v ->
  exists t,
    SpectralNormalization.normalize_l2 v epsilon = Ok t
    /\ shape t = shape v /\ well_shaped t.
Proof.
  intros Hv. rewrite (normalize_l2_value _ _ Hv).
  eexists. split; [reflexivity|]. split; [reflexivity|].
  unfold well_shaped, l2_normalized. simpl. now rewrite length_map.
Qed.

Lemma tf_reshape_kernel (t : tensor) (kh kw c f : nat) :
  shape t = [kh; kw; c; f] -> f <> 0 ->
  tf_reshape t [Z.of_nat f; (-1)%Z]
  = Ok (mkTensor [f; kh * kw * c] (data t)).
Proof.
  intros Hs Hf. unfold tf_reshape, count_inferred, known_extent, has_zero.
  rewrite Hs.
  assert (E1 : (Z.of_nat f <? -1)%Z = false) by (apply Z.ltb_ge; lia).
  assert (E2 : (Z.of_nat f <? 0)%Z = false) by (apply Z.ltb_ge; lia).
  assert (E3 : (Z.of_nat f <=? 0)%Z = false) by (apply Z.leb_gt; lia).
  assert (E4 : (Z.of_nat f =? 0)%Z = false) by (apply Z.eqb_neq; lia).
  cbn [existsb filter fold_right map].
  rewrite E1, E2, E3, E4.
  change (-1 <? -1)%Z with false. change (-1 <? 0)%Z with true.
  change (-1 <=? 0)%Z with true. change (-1 =? 0)%Z with false.
  cbn [orb andb negb length filter fold_right].
  change (counted_elements false [kh; kw; c; f])
    with (size_of [kh; kw; c; f]).
  rewrite Nat2Z.id.
  assert (Hn : size_of [kh; kw; c; f] = (kh * kw * c) * (f * 1))
    by (cbn [size_of fold_right]; lia).
  rewrite Hn, Nat.div_mul by lia.
  replace (f * 1 * (kh * kw * c) =? kh * kw * c * (f * 1)) with true
    by (symmetry; apply Nat.eqb_eq; lia).
  cbn [negb].
  replace (kh * kw * c * (f * 1) =? size_of [f; kh * kw * c]) with true
    by (symmetry; apply Nat.eqb_eq; cbn [size_of fold_right]; lia).
  reflexivity.
Qed.

Section PowerIterationShapes.

Variable self : SpectralNormalization.t.
Variables (W u0 : tensor) (f n : nat).
Hypothesis HW : shape W = [f; n].
Hypothesis Hu : SpectralNormalization.u self = Ok u0.
Hypothesis Hus : shape u0 = [f; 1].

Lemma power_iteration_body_returns :
  exists v u_new spectral_norm,
    SpectralNormalization.power_iteration_body self W
    = Ok (v, u_new, spectral_norm)
    /\ shape u_new = [f; 1] /\ well_shaped u_new
    /\ shape spectral_norm = [1; 1] /\ well_shaped spectral_norm.
Proof.
  unfold SpectralNormalization.power_iteration_body. rewrite Hu. cbn [bind].
  destruct (tf_matmul_rank2 W u0 true false f n f 1 HW Hus eq_refl)
    as (Wtu & -> & HWtu & HWtu'). cbn [bind].
  destruct (normalize_l2_shape Wtu SpectralNormalization.default_epsilon HWtu')
    as (v & -> & Hv & Hv'). cbn [bind].
  rewrite HWtu in Hv.
  destruct (tf_matmul_rank2 W v false false f n n 1 HW Hv eq_refl)
    as (Wv & -> & HWv & HWv'). cbn [bind].
  destruct (normalize_l2_shape Wv SpectralNormalization.default_epsilon HWv')
    as (u_new & -> & Hun & Hun'). cbn [bind].
  rewrite HWv in Hun.
  destruct (tf_matmul_rank2 u_new W true false f 1 f n Hun HW eq_refl)
    as (utW & -> & HutW & _). cbn [bind].
  destruct (tf_matmul_rank2 utW v false false 1 n n 1 HutW Hv eq_refl)
    as (sn & -> & Hsn & Hsn'). cbn [bind].
  exists v, u_new, sn. auto.
Qed.

Hypothesis Hn : (1 <= SpectralNormalization.n_power_iterations self)%Z.

Lemma power_iteration_returns :
  exists spectral_norm u_new,
    SpectralNormalization.power_iteration self W = Ok (spectral_norm, u_new)
    /\ shape u_new = [f; 1] /\ well_shaped u_new
    /\ shape spectral_norm = [1; 1] /\ well_shaped spectral_norm.
Proof.
  destruct power_iteration_body_returns as (v & u_new & sn & Hb & H).
  exists sn, u_new. split; [|exact H].
  unfold SpectralNormalization.power_iteration.
  destruct (Z.to_nat (SpectralNormalization.n_power_iterations self))
    as [|k] eqn:E; [lia|].
  rewrite power_iteration_loop_succ, Hb. reflexivity.
Qed.

End PowerIterationShapes.

(** ** The variable store *)

Lemma assign_rev_found (name : string) (t : tensor) (rvars : list tfVariable) :
  forall v,
    find (fun w => String.eqb (var_name w) name) rvars = Some v ->
    shape (var_value v) = shape t ->
    exists rvars',
      assign_rev name t rvars = Ok rvars'
      /\ find (fun w => String.eqb (var_name w) name) rvars'
         = Some (set_value v t).
Proof.
  induction rvars as [|w rest IH]; intros v Hf Hs; simpl in *.
  - discriminate.
  - destruct (String.eqb (var_name w) name) eqn:E.
    + injection Hf as ->. rewrite Hs, shape_eqb_refl.
      eexists. split; [reflexivity|]. simpl. now rewrite E.
    + destruct (IH v Hf Hs) as (r' & -> & Hr'). simpl.
      eexists. split; [reflexivity|]. simpl. now rewrite E.
Qed.

(** Assigning to a variable that exists, with a value of its shape,
    succeeds, and the variable then reads as that value. *)
Lemma assign_var_read (name : string) (t t0 : tensor) (vars : list tfVariable) :
  read_var name vars = Ok t0 -> shape t0 = shape t ->
  exists vars',
    assign_var name t vars = Ok vars' /\ read_var name vars' = Ok t.
Proof.
  unfold read_var, find_var, assign_var. intros Hr Hs.
  destruct (find _ (rev vars)) as [v|] eqn:Hf; simpl in Hr; [|discriminate].
  injection Hr as <-.
  destruct (assign_rev_found name t (rev vars) v Hf Hs) as (r' & -> & Hr').
  simpl. eexists. split; [reflexivity|].
  now rewrite rev_involutive, Hr'.
Qed.

Lemma assign_rev_read (name : string) (t : tensor) (rvars : list tfVariable) :
  forall rvars',
    assign_rev name t rvars = Ok rvars' ->
    option_map var_value
      (find (fun w => String.eqb (var_name w) name) rvars') = Some t.
Proof.
  induction rvars as [|w rest IH]; intros rvars' H; simpl in H.
  - discriminate.
  - destruct (String.eqb (var_name w) name) eqn:E.
    + destruct (shape_eqb (shape (var_value w)) (shape t)); [|discriminate].
      injection H as <-. simpl. now rewrite E.
    + destruct (assign_rev name t rest) as [r'|] eqn:Er; simpl in H;
        [|discriminate].
      injection H as <-. simpl. rewrite E. now apply IH.
Qed.

(** After a successful assignment the variable reads as the value
    assigned. *)
Lemma assign_var_ok_read (name : string) (t : tensor)
    (vars vars' : list tfVariable) :
  assign_var name t vars = Ok vars' -> read_var name vars' = Ok t.
Proof.
  unfold assign_var, read_var, find_var. intros H.
  destruct (assign_rev name t (rev vars)) as [r'|] eqn:Er; simpl in H;
    [|discriminate].
  injection H as <-. rewrite rev_involutive.
  now rewrite (assign_rev_read name t (rev vars) r' Er).
Qed.

(** Rebinding an attribute removes the variable it was bound to and
    no other. *)
Lemma find_remove_first (n m : string) (vars : list tfVariable) :
  n <> m ->
  find (fun w => String.eqb (var_name w) n) (remove_first m vars)
  = find (fun w => String.eqb (var_name w) n) vars.
Proof.
  intros Hnm. induction vars as [|v rest IH]; simpl; [reflexivity|].
  destruct (String.eqb_spec (var_name v) m) as [Em|Em].
  - destruct (String.eqb_spec (var_name v) n) as [En|En];
      [congruence | reflexivity].
  - simpl. now rewrite IH.
Qed.

Lemma find_var_untrack (n m : string) (vars : list tfVariable) :
  n <> m -> find_var n (untrack m vars) = find_var n vars.
Proof.
  intros Hnm. unfold find_var, untrack.
  rewrite rev_involutive. now apply find_remove_first.
Qed.

Lemma Forall_remove_first (P : tfVariable -> Prop) (m : string)
    (vars : list tfVariable) :
  Forall P vars -> Forall P (remove_first m vars).
Proof.
  induction 1 as [|v rest Hv Hrest IH]; simpl; [constructor|].
  destruct (String.eqb (var_name v) m); [assumption | now constructor].
Qed.

Lemma Forall_untrack (P : tfVariable -> Prop) (m : string)
    (vars : list tfVariable) :
  Forall P vars -> Forall P (untrack m vars).
Proof.
  intros H. unfold untrack.
  apply Forall_rev, Forall_remove_first, Forall_rev. exact H.
Qed.

(** A layer in which a variable can be read has a first weight. *)
Lemma read_var_first (n : string) (vars : list tfVariable) (t : tensor) :
  read_var n vars = Ok t -> exists w0, nth_error vars 0 = Some w0.
Proof.
  destruct vars as [|w0 rest]; [discriminate|].
  intros _. now exists w0.
Qed.

(** ** [power_iteration] reads [u] and the iteration count only *)

Lemma power_iteration_layer_irrelevant
    (self : SpectralNormalization.t) (L : Conv2D.t) (W : tensor) :
  SpectralNormalization.power_iteration (SpectralNormalization.set_layer self L) W
  = SpectralNormalization.power_iteration self W.
Proof.
  unfold SpectralNormalization.power_iteration. simpl.
  generalize (@None (tensor * tensor * tensor)).
  induction (Z.to_nat (SpectralNormalization.n_power_iterations self))
    as [|k IH]; intros locals; [reflexivity|].
  simpl.
  change (SpectralNormalization.power_iteration_body
            (SpectralNormalization.set_layer self L) W)
    with (SpectralNormalization.power_iteration_body self W).
  destruct (SpectralNormalization.power_iteration_body self W) as [l|e];
    cbn [bind]; [|reflexivity].
  specialize (IH (Some l)).
  destruct (SpectralNormalization.power_iteration_loop k
              (SpectralNormalization.set_layer self L) W (Some l));
    destruct (SpectralNormalization.power_iteration_loop k self W (Some l));
    cbn [bind] in *; congruence.
Qed.

(** ** [normalize_weights] on a ready object *)

(** The state of the layer after [layer.kernel = k]. *)
Lemma ready_set_kernel (self : SpectralNormalization.t) (k : tensor) :
  ready self ->
  ready (SpectralNormalization.set_layer self
           (Conv2D.set_kernel (SpectralNormalization.layer self) k)).
Proof.
  intros (Hi & Hc & Hn & c & W_orig & u0
          & Hspec & Hall & HWo & HWos & HWow & Hb & Hu & Hus & Huw).
  unfold ready.
  cbn [SpectralNormalization.set_layer SpectralNormalization.layer
       SpectralNormalization.init SpectralNormalization.n_power_iterations
       Conv2D.set_kernel Conv2D.filters Conv2D.kernel_size Conv2D.strides
       Conv2D.input_spec Conv2D.variables].
  split; [exact Hi|]. split; [exact Hc|]. split; [exact Hn|].
  exists c, W_orig, u0.
  split; [exact Hspec|].
  destruct (Conv2D.kernel_attr (SpectralNormalization.layer self))
    as [[|k0]|] eqn:Ek.
  - split; [now apply Forall_untrack|].
    split; [unfold read_var; rewrite find_var_untrack by discriminate;
            exact HWo|].
    split; [exact HWos|]. split; [exact HWow|].
    split; [|auto].
    intros bt. unfold Conv2D.bias.
    cbn [Conv2D.use_bias Conv2D.variables Conv2D.set_kernel].
    rewrite Ek, find_var_untrack by discriminate. apply Hb.
  - repeat (split; [assumption|]).
    split; [|auto].
    intros bt. unfold Conv2D.bias.
    cbn [Conv2D.use_bias Conv2D.variables Conv2D.set_kernel].
    rewrite Ek. apply Hb.
  - repeat (split; [assumption|]).
    split; [|auto].
    intros bt. unfold Conv2D.bias.
    cbn [Conv2D.use_bias Conv2D.variables Conv2D.set_kernel].
    rewrite Ek. apply Hb.
Qed.

Lemma normalize_weights_ready
    (self : SpectralNormalization.t) (training : bool) :
  ready self ->
  exists W_orig W_res spectral_norm u_new W_sn self',
    read_var "kernel_orig" (Conv2D.variables (SpectralNormalization.layer self))
    = Ok W_orig
    /\ tf_reshape W_orig
         [Z.of_nat (nth 3 (shape W_orig) 0); (-1)%Z] = Ok W_res
    /\ SpectralNormalization.power_iteration self W_res
       = Ok (spectral_norm, u_new)
    /\ W_sn = mkTensor (shape W_orig)
                (map (fun x => (x / item (data spectral_norm) 0)%R) (data W_orig))
    /\ SpectralNormalization.normalize_weights self training = Ok (W_sn, self')
    /\ SpectralNormalization.u self'
       = (if training then Ok u_new else SpectralNormalization.u self)
    /\ SpectralNormalization.layer self' = SpectralNormalization.layer self
    /\ SpectralNormalization.init self' = SpectralNormalization.init self
    /\ SpectralNormalization.n_power_iterations self'
       = SpectralNormalization.n_power_iterations self
    /\ (training = false -> self' = self)
    /\ shape u_new = [nth 3 (shape W_orig) 0; 1]
    /\ well_shaped u_new
    /\ ready self'
    /\ shape W_orig
       = [fst (Conv2D.kernel_size (SpectralNormalization.layer self));
          snd (Conv2D.kernel_size (SpectralNormalization.layer self));
          nth 2 (shape W_orig) 0;
          Conv2D.filters (SpectralNormalization.layer self)]
    /\ Conv2D.input_spec (SpectralNormalization.layer self)
       = Some (nth 2 (shape W_orig) 0).
Proof.
  intros (Hi & Hc & Hn & c & W_orig & u0
          & Hspec & Hall & HWo & HWos & HWow & Hb & Hu & Hus & Huw).
  pose proof Hc as (Hf & _).
  set (L := SpectralNormalization.layer self) in *.
  set (f := Conv2D.filters L) in *.
  set (kh := fst (Conv2D.kernel_size L)) in *.
  set (kw := snd (Conv2D.kernel_size L)) in *.
  destruct (read_var_first _ _ _ HWo) as (w0 & Hw0).
  assert (Hw0s : nth_error (rev (shape (var_value w0))) 0 = Some f).
  { destruct (Conv2D.variables L) as [|w rest]; [discriminate|].
    injection Hw0 as <-. now inversion Hall. }
  pose proof (tf_reshape_kernel W_orig kh kw c f HWos Hf) as Hres.
  destruct (power_iteration_returns self
              (mkTensor [f; kh * kw * c] (data W_orig)) u0 f (kh * kw * c)
              eq_refl Hu Hus Hn)
    as (sn & u_new & Hpi & Hun & Hunw & Hsn & Hsnw).
  assert (Hdiv : tf_div W_orig sn
                 = Ok (mkTensor (shape W_orig)
                         (map (fun x => (x / item (data sn) 0)%R) (data W_orig)))).
  { unfold tf_div. apply elementwise_ones_r; auto.
    - rewrite Hsn. repeat constructor.
    - rewrite Hsn, HWos. simpl. lia. }
  assert (Hnth : nth 3 (shape W_orig) 0 = f) by (rewrite HWos; reflexivity).
  assert (Hnth2 : nth 2 (shape W_orig) 0 = c) by (rewrite HWos; reflexivity).
  assert (Hrun :
    forall tr,
      SpectralNormalization.normalize_weights self tr
      = (W_sn <- Ok (mkTensor (shape W_orig)
                       (map (fun x => (x / item (data sn) 0)%R) (data W_orig)));;
         if tr then
           vars <- assign_var "u" u_new (SpectralNormalization.variables self);;
           Ok (W_sn, SpectralNormalization.set_variables self vars)
         else Ok (W_sn, self))).
  { intros tr. unfold SpectralNormalization.normalize_weights.
    fold L. rewrite Hw0. cbn [of_option bind]. rewrite Hw0s.
    cbn [of_option bind].
    rewrite HWo. cbn [bind]. rewrite Hres. cbn [bind]. rewrite Hpi.
    cbn [bind]. rewrite Hdiv. reflexivity. }
  assert (Hshape : shape W_orig = [kh; kw; nth 2 (shape W_orig) 0; f])
    by (rewrite Hnth2; exact HWos).
  assert (Hun' : shape u_new = [nth 3 (shape W_orig) 0; 1]) by congruence.
  assert (Hspec' : Conv2D.input_spec L = Some (nth 2 (shape W_orig) 0))
    by (rewrite Hnth2; exact Hspec).
  exists W_orig, (mkTensor [f; kh * kw * c] (data W_orig)), sn, u_new.
  eexists.
  destruct training.
  - destruct (assign_var_read "u" u_new u0 (SpectralNormalization.variables self))
      as (vars' & Hassign & Hread); [exact Hu | congruence |].
    exists (SpectralNormalization.set_variables self vars').
    split; [exact HWo|]. split; [rewrite Hnth; exact Hres|].
    split; [exact Hpi|]. split; [reflexivity|].
    split; [rewrite Hrun; cbn [bind]; rewrite Hassign; reflexivity|].
    split; [exact Hread|]. split; [reflexivity|]. split; [reflexivity|].
    split; [reflexivity|]. split; [discriminate|].
    split; [exact Hun'|]. split; [exact Hunw|].
    split; [|split; [exact Hshape | exact Hspec']].
    split; [exact Hi|]. split; [exact Hc|]. split; [exact Hn|].
    exists c, W_orig, u_new.
    repeat (split; [assumption|]). assumption.
  - exists self.
    split; [exact HWo|]. split; [rewrite Hnth; exact Hres|].
    split; [exact Hpi|]. split; [reflexivity|].
    split; [rewrite Hrun; reflexivity|].
    split; [reflexivity|]. split; [reflexivity|]. split; [reflexivity|].
    split; [reflexivity|]. split; [reflexivity|].
    split; [exact Hun'|]. split; [exact Hunw|].
    split; [|split; [exact Hshape | exact Hspec']].
    split; [exact Hi|]. split; [exact Hc|]. split; [exact Hn|].
    exists c, W_orig, u0.
    repeat (split; [assumption|]). assumption.
Qed.

(* ================================================================== *)
(** * [SpectralNormalization.call] *)

Lemma bias_set_kernel (L : Conv2D.t) (k : tensor) :
  Conv2D.bias (Conv2D.set_kernel L k) = Conv2D.bias L.
Proof.
  unfold Conv2D.bias.
  cbn [Conv2D.use_bias Conv2D.variables Conv2D.set_kernel].
  destruct (Conv2D.kernel_attr L) as [[|k0]|]; try reflexivity.
  now rewrite find_var_untrack by discriminate.
Qed.

Lemma read_kernel_orig_set_kernel (L : Conv2D.t) (k : tensor) :
  read_var "kernel_orig" (Conv2D.variables (Conv2D.set_kernel L k))
  = read_var "kernel_orig" (Conv2D.variables L).
Proof.
  cbn [Conv2D.variables Conv2D.set_kernel].
  destruct (Conv2D.kernel_attr L) as [[|k0]|]; try reflexivity.
  unfold read_var. now rewrite find_var_untrack by discriminate.
Qed.

Lemma set_kernel_twice (L : Conv2D.t) (k k' : tensor) :
  Conv2D.set_kernel (Conv2D.set_kernel L k) k' = Conv2D.set_kernel L k'.
Proof. reflexivity. Qed.

Section Call.
Context {FW : Framework}.

Lemma initial_value_well_shaped (ini : initializer) (s : list nat) :
  well_shaped (initial_value ini s).
Proof. unfold well_shaped. simpl. apply tabulate_length. Qed.

(** The first branch of [call] on a fresh object and a rank-4 input:
    the layer is built on the channels of [x] and run once on the
    initial kernel [K]; if that convolution returns, the object is ready,
    with [kernel_orig] a copy of [K], and [u] is left alone. *)
Lemma initialize_fresh (self : SpectralNormalization.t) (x : tensor)
    (nb nh nw c : nat) :
  fresh self -> shape x = [nb; nh; nw; c] ->
  let L := SpectralNormalization.layer self in
  let K := initial_value (Conv2D.kernel_initializer L)
             [fst (Conv2D.kernel_size L); snd (Conv2D.kernel_size L); c;
              Conv2D.filters L] in
  let b := if Conv2D.use_bias L
           then Some (initial_value Zeros [Conv2D.filters L]) else None in
  exists self1,
    SpectralNormalization.initialize self x
    = (_ <- conv2d (Conv2D.strides L) (Conv2D.conv_padding L) K b x;; Ok self1)
    /\ ready self1
    /\ Conv2D.input_spec (SpectralNormalization.layer self1) = Some c
    /\ SpectralNormalization.variables self1
       = SpectralNormalization.variables self
    /\ same_config (SpectralNormalization.layer self1) L
    /\ Conv2D.use_bias (SpectralNormalization.layer self1) = Conv2D.use_bias L
    /\ Conv2D.kernel_attr (SpectralNormalization.layer self1)
       = Some Conv2D.KernelVariable
    /\ Conv2D.variables (SpectralNormalization.layer self1)
       = mkVariable "kernel" K true
         :: (if Conv2D.use_bias L
             then [mkVariable "bias" (initial_value Zeros [Conv2D.filters L])
                     true]
             else [])
         ++ [mkVariable "kernel_orig" K true].
Proof.
  intros (Hi & Hb & Hv & Hc & Hn & u0 & Hu & Hus & Huw) Hx.
  destruct self as [[f ks st pd ini ub sp vars ka] n i svars].
  cbn [SpectralNormalization.layer SpectralNormalization.init
       SpectralNormalization.n_power_iterations
       Conv2D.input_spec Conv2D.variables Conv2D.filters Conv2D.kernel_size
       Conv2D.strides Conv2D.conv_padding Conv2D.kernel_initializer
       Conv2D.use_bias] in *.
  subst sp vars i.
  unfold SpectralNormalization.initialize, Conv2D.call, Conv2D.build.
  cbn [Conv2D.input_spec SpectralNormalization.layer Conv2D.variables
       Conv2D.filters Conv2D.kernel_size Conv2D.kernel_initializer
       Conv2D.use_bias].
  rewrite Hx. cbn [bind].
  set (K := initial_value ini [fst ks; snd ks; c; f]).
  exists (SpectralNormalization.mk
            (Conv2D.mk f ks st pd ini ub (Some c)
               (mkVariable "kernel" K true
                :: (if ub then [mkVariable "bias" (initial_value Zeros [f]) true]
                    else [])
                ++ [mkVariable "kernel_orig" K true])
               (Some Conv2D.KernelVariable))
            n true svars).
  split.
  { destruct ub; cbn -[initial_value conv2d]; fold K;
      destruct (conv2d st pd K _ x) as [y|e]; cbn -[initial_value conv2d];
      rewrite ?shape_eqb_refl; reflexivity. }
  split.
  { unfold ready.
    cbn [SpectralNormalization.layer SpectralNormalization.init
         SpectralNormalization.n_power_iterations
         Conv2D.input_spec Conv2D.variables Conv2D.filters Conv2D.kernel_size].
    split; [reflexivity|]. split; [exact Hc|]. split; [exact Hn|].
    exists c, K, u0.
    split; [reflexivity|].
    split.
    { destruct ub; repeat constructor. }
    split; [destruct ub; reflexivity|].
    split; [reflexivity|].
    split; [apply initial_value_well_shaped|].
    split.
    { intros bt. unfold Conv2D.bias. cbn [Conv2D.use_bias Conv2D.variables].
      destruct ub; [|discriminate].
      cbn -[initial_value]. intros E. injection E as <-. reflexivity. }
    auto. }
  split; [reflexivity|]. split; [reflexivity|].
  split; [repeat split|]. split; [reflexivity|]. split; reflexivity.
Qed.

(** A forward pass on a ready object: normalise, install the
    normalised kernel, check the input, convolve. *)
Lemma call_ready (self : SpectralNormalization.t) (x : tensor)
    (training : bool) (W_sn : tensor) (self2 : SpectralNormalization.t)
    (c : nat) :
  ready self ->
  SpectralNormalization.normalize_weights self training = Ok (W_sn, self2) ->
  SpectralNormalization.layer self2 = SpectralNormalization.layer self ->
  Conv2D.input_spec (SpectralNormalization.layer self) = Some c ->
  let L := SpectralNormalization.layer self in
  SpectralNormalization.call self x training
  = (if Conv2D.compatible c x
     then y <- conv2d (Conv2D.strides L) (Conv2D.conv_padding L) W_sn
                 (Conv2D.bias L) x;;
          Ok (y, SpectralNormalization.set_layer self2
                   (Conv2D.set_kernel L W_sn))
     else Raise ValueError).
Proof.
  intros (Hi & _) Hnw HL Hspec L.
  unfold SpectralNormalization.call. rewrite Hi. cbn [negb bind].
  rewrite Hnw. cbn [bind].
  unfold Conv2D.call.
  cbn [SpectralNormalization.set_layer SpectralNormalization.layer
       Conv2D.set_kernel Conv2D.input_spec].
  rewrite HL, Hspec. fold L.
  destruct (Conv2D.compatible c x); cbn [bind]; [|reflexivity].
  change (Conv2D.kernel _) with (Ok W_sn). cbn [bind].
  rewrite (bias_set_kernel L W_sn).
  cbn [Conv2D.strides Conv2D.conv_padding].
  destruct (conv2d _ _ W_sn _ x) as [y|e]; reflexivity.
Qed.

(** A second inference pass on the same input repeats the first. *)
Lemma call_twice_ready (self : SpectralNormalization.t) (x : tensor)
    (o : tensor) (self1 : SpectralNormalization.t) :
  ready self ->
  SpectralNormalization.call self x false = Ok (o, self1) ->
  SpectralNormalization.call self1 x false = Ok (o, self1)
  /\ SpectralNormalization.variables self1
     = SpectralNormalization.variables self
  /\ ready self1.
Proof.
  intros Hr Hcall.
  destruct (normalize_weights_ready self false Hr)
    as (Wo & Wr & sn & un & W_sn & self' & HWo & HWr & Hpi & HW & Hnw
        & _ & HL & _ & _ & Hsame & _ & _ & _ & _ & Hspec).
  rewrite (Hsame eq_refl) in *. clear Hsame self'.
  set (L := SpectralNormalization.layer self) in *.
  set (self3 := SpectralNormalization.set_layer self (Conv2D.set_kernel L W_sn)).
  assert (Hr3 : ready self3) by (apply ready_set_kernel; exact Hr).
  rewrite (call_ready self x false W_sn self _ Hr Hnw eq_refl Hspec) in Hcall.
  fold L in Hcall.
  destruct (Conv2D.compatible (nth 2 (shape Wo) 0) x) eqn:Ecomp;
    [|discriminate].
  destruct (conv2d (Conv2D.strides L) (Conv2D.conv_padding L) W_sn
              (Conv2D.bias L) x) as [y|e] eqn:Econv;
    cbn [bind] in Hcall; [|discriminate].
  injection Hcall as <- <-. fold self3.
  destruct (normalize_weights_ready self3 false Hr3)
    as (Wo1 & Wr1 & sn1 & un1 & W_sn1 & self3' & HWo1 & HWr1 & Hpi1 & HW1
        & Hnw1 & _ & HL1 & _ & _ & Hsame1 & _ & _ & _ & _ & Hspec1).
  rewrite (Hsame1 eq_refl) in *. clear Hsame1 self3'.
  assert (EWo : Wo1 = Wo).
  { unfold self3 in HWo1.
    cbn [SpectralNormalization.set_layer SpectralNormalization.layer] in HWo1.
    rewrite read_kernel_orig_set_kernel in HWo1. congruence. }
  rewrite EWo in *.
  assert (E : W_sn1 = W_sn).
  { rewrite HW, HW1.
    assert (EWr : Wr1 = Wr) by congruence.
    rewrite EWr in *.
    unfold self3 in Hpi1. rewrite power_iteration_layer_irrelevant in Hpi1.
    assert (Esn : sn1 = sn) by congruence.
    now rewrite Esn. }
  rewrite E in Hnw1.
  split; [|split; [reflexivity | exact Hr3]].
  rewrite (call_ready self3 x false W_sn self3 _ Hr3 Hnw1 eq_refl Hspec1).
  rewrite Ecomp.
  unfold self3 at 1 2 3.
  cbn [SpectralNormalization.set_layer SpectralNormalization.layer].
  rewrite bias_set_kernel.
  cbn [Conv2D.set_kernel Conv2D.strides Conv2D.conv_padding].
  rewrite Econv. cbn [bind].
  reflexivity.
Qed.

(** What a call on a fresh object amounts to. *)
Lemma call_fresh (self self0 : SpectralNormalization.t) (x : tensor)
    (training : bool) :
  fresh self -> ready self0 ->
  SpectralNormalization.initialize self x = Ok self0 ->
  SpectralNormalization.call self x training
  = SpectralNormalization.call self0 x training.
Proof.
  intros (Hi & _) (Hi0 & _) Hini.
  unfold SpectralNormalization.call.
  rewrite Hi, Hi0, Hini. reflexivity.
Qed.

Lemma initialize_rank (self self0 : SpectralNormalization.t) (x : tensor) :
  fresh self -> SpectralNormalization.initialize self x = Ok self0 ->
  exists nb nh nw c, shape x = [nb; nh; nw; c].
Proof.
  intros (_ & Hb & _) Hini.
  unfold SpectralNormalization.initialize, Conv2D.call, Conv2D.build in Hini.
  rewrite Hb in Hini.
  destruct (shape x) as [|nb [|nh [|nw [|c [|? ?]]]]]; try discriminate.
  now exists nb, nh, nw, c.
Qed.

(** An inference pass on a fresh or ready object, if it returns, is
    repeated by the next one. *)
Lemma call_twice (self : SpectralNormalization.t) (x : tensor)
    (o : tensor) (self1 : SpectralNormalization.t) :
  fresh self \/ ready self ->
  SpectralNormalization.call self x false = Ok (o, self1) ->
  SpectralNormalization.call self1 x false = Ok (o, self1)
  /\ SpectralNormalization.variables self1
     = SpectralNormalization.variables self
  /\ ready self1.
Proof.
  intros [Hf | Hr] Hcall; [|now apply call_twice_ready].
  destruct (SpectralNormalization.initialize self x) as [self0|e] eqn:Hini.
  - destruct (initialize_rank self self0 x Hf Hini) as (nb & nh & nw & c & Hx).
    destruct (initialize_fresh self x nb nh nw c Hf Hx)
      as (s0 & Hini' & Hr0 & _ & Hv0 & _).
    rewrite Hini in Hini'.
    destruct (conv2d _ _ _ _ x) as [y|e]; cbn [bind] in Hini';
      [|discriminate].
    injection Hini' as ->.
    rewrite (call_fresh self s0 x false Hf Hr0 Hini) in Hcall.
    destruct (call_twice_ready s0 x o self1 Hr0 Hcall) as (H1 & H2 & H3).
    split; [exact H1|]. split; [congruence | exact H3].
  - destruct Hf as (Hi & _).
    unfold SpectralNormalization.call in Hcall.
    rewrite Hi, Hini in Hcall. discriminate.
Qed.

End Call.

(** What [normalize_weights] has done when it returns, whatever the
    state of the object. *)
Lemma normalize_weights_returned
    (self : SpectralNormalization.t) (training : bool)
    (W_sn : tensor) (self' : SpectralNormalization.t) :
  SpectralNormalization.normalize_weights self training = Ok (W_sn, self') ->
  exists filters W_orig W_res spectral_norm u_new,
    read_var "kernel_orig" (Conv2D.variables (SpectralNormalization.layer self))
    = Ok W_orig
    /\ tf_reshape W_orig [Z.of_nat filters; (-1)%Z] = Ok W_res
    /\ SpectralNormalization.power_iteration self W_res
       = Ok (spectral_norm, u_new)
    /\ SpectralNormalization.u self'
       = (if training then Ok u_new else SpectralNormalization.u self)
    /\ (training = false -> self' = self).
Proof.
  unfold SpectralNormalization.normalize_weights. intros H.
  destruct (nth_error _ 0) as [w0|]; cbn [of_option bind] in H;
    [|discriminate].
  destruct (nth_error (rev _) 0) as [filters|]; cbn [of_option bind] in H;
    [|discriminate].
  destruct (read_var "kernel_orig" _) as [W_orig|] eqn:HWo; cbn [bind] in H;
    [|discriminate].
  destruct (tf_reshape W_orig _) as [W_res|] eqn:HWr; cbn [bind] in H;
    [|discriminate].
  destruct (SpectralNormalization.power_iteration self W_res)
    as [[sn u_new]|] eqn:Hpi; cbn [bind] in H; [|discriminate].
  destruct (tf_div W_orig sn) as [W|]; cbn [bind] in H; [|discriminate].
  exists filters, W_orig, W_res, sn, u_new.
  split; [reflexivity|]. split; [exact HWr|]. split; [exact Hpi|].
  destruct training.
  - destruct (assign_var "u" u_new (SpectralNormalization.variables self))
      as [vars|] eqn:Ha; cbn [bind] in H; [|discriminate].
    injection H as _ <-.
    split; [|discriminate].
    unfold SpectralNormalization.u. cbn [SpectralNormalization.set_variables
                                         SpectralNormalization.variables].
    exact (assign_var_ok_read "u" u_new _ vars Ha).
  - injection H as _ <-. split; [reflexivity | reflexivity].
Qed.

(** C3.  Whenever [normalize_weights] returns, the persisted [u]
    afterwards is the estimate [power_iteration] has just computed for
    the reshaped [kernel_orig] exactly when [training] is true; when
    [training] is false the object, and so [u], is left as it was.  And
    on an initialised instance that is asked for at least one power
    iteration, [normalize_weights] does return. *)
Theorem normalize_weights_overwrites_u_iff_training
    (self : SpectralNormalization.t) (training : bool) :
  (forall W_sn self',
     SpectralNormalization.normalize_weights self training = Ok (W_sn, self') ->
     exists filters W_orig W_res spectral_norm u_new,
       read_var "kernel_orig"
         (Conv2D.variables (SpectralNormalization.layer self)) = Ok W_orig
       /\ tf_reshape W_orig [Z.of_nat filters; (-1)%Z] = Ok W_res
       /\ SpectralNormalization.power_iteration self W_res
          = Ok (spectral_norm, u_new)
       /\ SpectralNormalization.u self'
          = (if training then Ok u_new else SpectralNormalization.u self)
       /\ (training = false -> self' = self))
  /\ (ready self ->
      exists W_sn self',
        SpectralNormalization.normalize_weights self training
        = Ok (W_sn, self')).
Proof.
  split.
  - intros W_sn self'. apply normalize_weights_returned.
  - intros Hr.
    destruct (normalize_weights_ready self training Hr)
      as (Wo & Wr & sn & un & W_sn & self' & _ & _ & _ & _ & Hnw & _).
    now exists W_sn, self'.
Qed.
Lemma sn_ready_ready : ready sn_ready.
Proof.
  unfold ready, sn_ready, positive_config. simpl.
  split; [reflexivity|]. split; [repeat split; discriminate|].
  split; [lia|].
  exists 1, kernel_5_2, (mkTensor [2; 1] [3 / 5; 2]%R).
  split; [reflexivity|]. split; [repeat constructor|].
  split; [reflexivity|]. split; [reflexivity|]. split; [reflexivity|].
  split; [|repeat split; reflexivity].
  intros bt E. unfold Conv2D.bias in E. simpl in E.
  injection E as <-. reflexivity.
Defined.

Lemma sn_new_fresh : fresh sn_new.
Proof.
  unfold fresh, sn_new, positive_config. simpl.
  repeat split; try reflexivity; try lia; try discriminate.
  eexists. repeat split; reflexivity.
Defined.

Lemma normalize_weights_overwrites_u_iff_training_witness :
  exists W_sn self' W_res spectral_norm u_new,
    SpectralNormalization.normalize_weights sn_ready true = Ok (W_sn, self')
    /\ SpectralNormalization.power_iteration sn_ready W_res
       = Ok (spectral_norm, u_new)
    /\ SpectralNormalization.u self' = Ok u_new.
Proof.
  destruct (normalize_weights_overwrites_u_iff_training sn_ready true)
    as (Hret & Hrun).
  destruct (Hrun sn_ready_ready) as (W_sn & self' & Hnw).
  destruct (Hret W_sn self' Hnw)
    as (filters & Wo & Wr & sn & un & _ & _ & Hpi & Hu & _).
  exists W_sn, self', Wr, sn, un.
  split; [exact Hnw|]. split; [exact Hpi | exact Hu].
Defined.

(** ** No pass of the loop *)

Lemma power_iteration_no_pass (self : SpectralNormalization.t) (W : tensor) :
  (SpectralNormalization.n_power_iterations self <= 0)%Z ->
  SpectralNormalization.power_iteration self W = Raise UnboundLocalError.
Proof.
  intros Hn. unfold SpectralNormalization.power_iteration.
  replace (Z.to_nat (SpectralNormalization.n_power_iterations self)) with 0
    by (symmetry; destruct (SpectralNormalization.n_power_iterations self);
        simpl; lia).
  reflexivity.
Qed.

(** With no pass asked for, [normalize_weights] reaches
    [power_iteration] and fails there. *)
Lemma normalize_weights_no_pass (self : SpectralNormalization.t) (n : Z)
    (training : bool) :
  ready self -> (n <= 0)%Z ->
  SpectralNormalization.normalize_weights
    (SpectralNormalization.set_n_power_iterations self n) training
  = Raise UnboundLocalError.
Proof.
  intros (Hi & (Hf & _) & _ & c & W_orig & u0
          & Hspec & Hall & HWo & HWos & _) Hn.
  destruct (read_var_first _ _ _ HWo) as (w0 & Hw0).
  assert (Hw0s : nth_error (rev (shape (var_value w0))) 0
                 = Some (Conv2D.filters (SpectralNormalization.layer self))).
  { destruct (Conv2D.variables (SpectralNormalization.layer self))
      as [|w rest]; [discriminate|].
    injection Hw0 as <-. now inversion Hall. }
  unfold SpectralNormalization.normalize_weights.
  cbn [SpectralNormalization.set_n_power_iterations
       SpectralNormalization.layer].
  rewrite Hw0. cbn [of_option bind]. rewrite Hw0s. cbn [of_option bind].
  rewrite HWo. cbn [bind].
  rewrite (tf_reshape_kernel W_orig _ _ c _ HWos Hf). cbn [bind].
  rewrite power_iteration_no_pass by exact Hn. reflexivity.
Qed.

(** C3 as stated fails: an initialised instance that is asked for no
    power iteration does not overwrite [u] when training; the call
    raises. *)
Lemma u_not_overwritten_without_iteration :
  ~ u_overwritten_iff_training
      (SpectralNormalization.set_n_power_iterations sn_ready 0).
Proof.
  intros H. destruct (H eq_refl true) as (W_sn & self' & Hnw & _).
  rewrite (normalize_weights_no_pass sn_ready 0 true sn_ready_ready) in Hnw
    by lia.
  discriminate Hnw.
Qed.

(* ================================================================== *)
(** * When [u] comes into being *)

(** A forward pass with [training=False] returns the object with the
    variables it had. *)
Lemma call_inference_keeps_variables {FW : Framework}
    (self : SpectralNormalization.t) (x : tensor) :
  match SpectralNormalization.call self x false with
  | Ok (_, self') =>
      SpectralNormalization.variables self'
      = SpectralNormalization.variables self
  | Raise _ => True
  end.
Proof.
  unfold SpectralNormalization.call.
  assert (Hini :
    match (if negb (SpectralNormalization.init self)
           then SpectralNormalization.initialize self x else Ok self) with
    | Ok self1 => SpectralNormalization.variables self1
                  = SpectralNormalization.variables self
    | Raise _ => True
    end).
  { destruct (SpectralNormalization.init self); cbn [negb]; [reflexivity|].
    unfold SpectralNormalization.initialize.
    destruct (Conv2D.call (SpectralNormalization.layer self) x)
      as [[o1 L1]|]; cbn [bind]; [|exact I].
    destruct (Conv2D.kernel L1); cbn [bind]; [|exact I].
    match goal with
    | |- match bind ?m _ with _ => _ end => destruct m
    end; cbn [bind]; [reflexivity | exact I]. }
  destruct (if negb (SpectralNormalization.init self)
            then SpectralNormalization.initialize self x else Ok self)
    as [self1|]; cbn [bind]; [|exact I].
  assert (Hnw :
    match SpectralNormalization.normalize_weights self1 false with
    | Ok (_, self2) => self2 = self1
    | Raise _ => True
    end).
  { unfold SpectralNormalization.normalize_weights.
    repeat match goal with
           | |- match bind ?m _ with _ => _ end =>
               destruct m as [?|]; cbn [bind]; [|exact I]
           | |- match (let '(_, _) := ?p in _) with _ => _ end =>
               destruct p
           end.
    reflexivity. }
  destruct (SpectralNormalization.normalize_weights self1 false)
    as [[W_sn self2]|]; cbn [bind]; [|exact I].
  subst self2.
  destruct (Conv2D.call _ x) as [[o L]|]; cbn [bind]; [|exact I].
  exact Hini.
Qed.

(** C5, as the code has it.  [u] is created by the constructor, before
    any forward pass (the flag [init] is still false), as a random-normal
    tensor of shape [[filters, 1]], [filters] being the filter count of
    the wrapped convolution; a forward pass with [training=False] does
    not create or replace it. *)
Theorem u_created_by_constructor {FW : Framework}
    (layer : Conv2D.t) (n : Z) :
  let self := SpectralNormalization.__init__ layer n in
  SpectralNormalization.init self = false
  /\ SpectralNormalization.u self
     = Ok (initial_value RandomNormal [Conv2D.filters layer; 1])
  /\ well_shaped (initial_value RandomNormal [Conv2D.filters layer; 1])
  /\ forall x,
       match SpectralNormalization.call self x false with
       | Ok (_, self') =>
           SpectralNormalization.u self' = SpectralNormalization.u self
       | Raise _ => True
       end.
Proof.
  intros self. split; [reflexivity|]. split; [reflexivity|].
  split; [apply initial_value_well_shaped|].
  intros x. pose proof (call_inference_keeps_variables self x) as H.
  destruct (SpectralNormalization.call self x false) as [[o self']|];
    [|exact I].
  unfold SpectralNormalization.u. now rewrite H.
Qed.

(** C5 as stated fails: straight from the constructor, the object
    already holds [u]. *)
Lemma u_not_initialized_on_first_use :
  ~ u_initialized_on_first_use (FW := example_framework)
      (Conv2D.new 3 (1, 1) (StrideInt 1) Valid GlorotUniform true) 1
      pixel false.
Proof.
  unfold u_initialized_on_first_use. intros [H _]. discriminate H.
Qed.

(* ================================================================== *)
(** * Shapes through a forward pass *)

Lemma example_framework_lawful : lawful example_framework.
Proof.
  constructor; simpl.
  - intros st p k b x nb nh nw nc kh kw nf Hx Hk _ Hs1 Hs2 _ Ho.
    unfold example_conv2d. rewrite Hx, Hk.
    cbn [size_of fold_right] in Ho.
    rewrite Nat.eqb_refl.
    destruct (Nat.eqb_spec (fst st) 0) as [E|_]; [contradiction|].
    destruct (Nat.eqb_spec (snd st) 0) as [E|_]; [contradiction|].
    destruct (Nat.eqb_spec (out_extent p nh kh (fst st)) 0) as [E|_];
      [rewrite E in Ho; lia|].
    destruct (Nat.eqb_spec (out_extent p nw kw (snd st)) 0) as [E|_];
      [rewrite E in Ho; lia|].
    cbn [negb orb]. eexists. split; reflexivity.
  - reflexivity.
  - intros x nb nh nw nc Hx. unfold example_pool. rewrite Hx. reflexivity.
  - intros x nb nh nw nc Hx. unfold example_pool. rewrite Hx. reflexivity.
  - intros x. unfold example_softmax.
    destruct (shape x) as [|nb [|m [|n [|? ?]]]] eqn:E; simpl; congruence.
Defined.

Lemma out_extent_valid_1 (n : nat) : out_extent Valid n 1 1 = n.
Proof.
  unfold out_extent. destruct (Nat.ltb_spec n 1).
  - lia.
  - rewrite Nat.div_1_r. lia.
Qed.

Lemma conv_output_same_config (L' L : Conv2D.t) (xs : list nat) :
  same_config L' L -> conv_output L' xs = conv_output L xs.
Proof.
  intros (C1 & C2 & C3 & C4). unfold conv_output.
  now rewrite C1, C2, C3, C4.
Qed.

Lemma size_of_4_nonzero (a b c d : nat) :
  a <> 0 -> b <> 0 -> c <> 0 -> d <> 0 -> size_of [a; b; c; d] <> 0.
Proof. intros. cbn [size_of fold_right]. nia. Qed.

Section CallShape.
Context {FW : Framework}.
Hypothesis FW_lawful : lawful FW.

(** A forward pass on a ready object, step by step. *)
Lemma call_ready_returns (s : SpectralNormalization.t) (x : tensor)
    (training : bool) (nb nh nw nc : nat) :
  ready s ->
  Conv2D.input_spec (SpectralNormalization.layer s) = Some nc ->
  shape x = [nb; nh; nw; nc] -> nc <> 0 ->
  size_of (conv_output (SpectralNormalization.layer s) (shape x)) <> 0 ->
  let L := SpectralNormalization.layer s in
  exists W_orig W_res spectral_norm u_new W_sn s' o,
    read_var "kernel_orig" (Conv2D.variables L) = Ok W_orig
    /\ tf_reshape W_orig [Z.of_nat (Conv2D.filters L); (-1)%Z] = Ok W_res
    /\ SpectralNormalization.power_iteration s W_res
       = Ok (spectral_norm, u_new)
    /\ W_sn = mkTensor (shape W_orig)
                (map (fun w => (w / item (data spectral_norm) 0)%R)
                   (data W_orig))
    /\ SpectralNormalization.normalize_weights s training = Ok (W_sn, s')
    /\ SpectralNormalization.layer s' = L
    /\ ready s'
    /\ conv2d (Conv2D.strides L) (Conv2D.conv_padding L) W_sn
         (Conv2D.bias L) x = Ok o
    /\ shape o = conv_output L (shape x)
    /\ SpectralNormalization.call s x training
       = Ok (o, SpectralNormalization.set_layer s' (Conv2D.set_kernel L W_sn)).
Proof.
  intros Hr Hspec Hx Hnc Hout L.
  destruct (normalize_weights_ready s training Hr)
    as (Wo & Wr & sn & un & W_sn & s' & HWo & HWr & Hpi & HW & Hnw
        & _ & HL & _ & _ & _ & _ & _ & Hr' & HWs & Hspec').
  assert (Ec : nth 2 (shape Wo) 0 = nc) by congruence.
  rewrite Ec in HWs.
  assert (Ef : nth 3 (shape Wo) 0 = Conv2D.filters L)
    by (rewrite HWs; reflexivity).
  rewrite Ef in HWr.
  pose proof Hr as (_ & (Hf & Hkh & Hkw & Hs1 & Hs2) & _ & c0 & Wo0 & u0
                    & _ & _ & _ & _ & _ & Hb & _).
  fold L in HWo, HWs, Hspec, HL, Hf, Hkh, Hkw, Hs1, Hs2, Hb, Hout.
  assert (Hout' := Hout).
  rewrite Hx in Hout' |- *. cbn [conv_output] in Hout' |- *.
  destruct (@conv2d_shape FW FW_lawful (Conv2D.strides L) (Conv2D.conv_padding L)
              W_sn (Conv2D.bias L) x nb nh nw nc
              (fst (Conv2D.kernel_size L)) (snd (Conv2D.kernel_size L))
              (Conv2D.filters L))
    as (y & Hy & Hys); auto.
  { rewrite HW. exact HWs. }
  { now apply size_of_4_nonzero. }
  exists Wo, Wr, sn, un, W_sn, s', y.
  split; [exact HWo|]. split; [exact HWr|]. split; [exact Hpi|].
  split; [exact HW|]. split; [exact Hnw|]. split; [exact HL|].
  split; [exact Hr'|]. split; [exact Hy|]. split; [exact Hys|].
  rewrite (call_ready s x training W_sn s' nc Hr Hnw HL Hspec).
  fold L. unfold Conv2D.compatible. rewrite Hx, Nat.eqb_refl, Hy.
  reflexivity.
Qed.

Lemma sn_call_shape_ready (s : SpectralNormalization.t) (x : tensor)
    (training : bool) (nb nh nw nc : nat) :
  ready s ->
  Conv2D.input_spec (SpectralNormalization.layer s) = Some nc ->
  shape x = [nb; nh; nw; nc] -> nc <> 0 ->
  size_of (conv_output (SpectralNormalization.layer s) (shape x)) <> 0 ->
  exists o self',
    SpectralNormalization.call s x training = Ok (o, self')
    /\ ready self'
    /\ Conv2D.input_spec (SpectralNormalization.layer self') = Some nc
    /\ same_config (SpectralNormalization.layer self')
         (SpectralNormalization.layer s)
    /\ shape o = conv_output (SpectralNormalization.layer s) (shape x).
Proof.
  intros Hr Hspec Hx Hnc Hout.
  destruct (call_ready_returns s x training nb nh nw nc Hr Hspec Hx Hnc Hout)
    as (Wo & Wr & sn & un & W_sn & s' & o & _ & _ & _ & _ & _ & HL & Hr'
        & _ & Ho & Hcall).
  exists o, (SpectralNormalization.set_layer s'
               (Conv2D.set_kernel (SpectralNormalization.layer s) W_sn)).
  split; [exact Hcall|].
  split.
  { pose proof (ready_set_kernel s' W_sn Hr') as H.
    rewrite HL in H. exact H. }
  split; [exact Hspec|].
  split; [repeat split | exact Ho].
Qed.

(** A forward pass on an object that takes the channels of a rank-4,
    non-empty input, whose output is not empty either, returns, leaves
    the object ready, and yields a tensor of the shape the convolution's
    configuration announces. *)
Lemma sn_call_shape (self : SpectralNormalization.t) (x : tensor)
    (training : bool) (nb nh nw nc : nat) :
  accepts self nc -> shape x = [nb; nh; nw; nc] -> nc <> 0 ->
  size_of (conv_output (SpectralNormalization.layer self) (shape x)) <> 0 ->
  exists o self',
    SpectralNormalization.call self x training = Ok (o, self')
    /\ ready self'
    /\ Conv2D.input_spec (SpectralNormalization.layer self') = Some nc
    /\ same_config (SpectralNormalization.layer self')
         (SpectralNormalization.layer self)
    /\ shape o = conv_output (SpectralNormalization.layer self) (shape x).
Proof.
  intros [Hf | (Hr & Hspec)] Hx Hnc Hout;
    [|now apply sn_call_shape_ready with (nb := nb) (nh := nh) (nw := nw)].
  destruct (initialize_fresh self x nb nh nw nc Hf Hx)
    as (self0 & Hini & Hr0 & Hspec0 & _ & Hc & Hub & _).
  pose proof Hf as (_ & _ & _ & (Hfl & Hkh & Hkw & Hs1 & Hs2) & _).
  set (L := SpectralNormalization.layer self) in *.
  assert (Hout' := Hout).
  rewrite Hx in Hout'. cbn [conv_output] in Hout'.
  destruct (@conv2d_shape FW FW_lawful (Conv2D.strides L) (Conv2D.conv_padding L)
              (initial_value (Conv2D.kernel_initializer L)
                 [fst (Conv2D.kernel_size L); snd (Conv2D.kernel_size L); nc;
                  Conv2D.filters L])
              (if Conv2D.use_bias L
               then Some (initial_value Zeros [Conv2D.filters L]) else None)
              x nb nh nw nc
              (fst (Conv2D.kernel_size L)) (snd (Conv2D.kernel_size L))
              (Conv2D.filters L))
    as (y & Hy & _); auto.
  { intros bt. destruct (Conv2D.use_bias L); [|discriminate].
    intros E. injection E as <-. reflexivity. }
  { now apply size_of_4_nonzero. }
  cbv zeta in Hini. fold L in Hini. rewrite Hy in Hini. cbn [bind] in Hini.
  rewrite (call_fresh self self0 x training Hf Hr0 Hini).
  rewrite <- (conv_output_same_config _ _ (shape x) Hc) in Hout |- *.
  destruct (sn_call_shape_ready self0 x training nb nh nw nc
              Hr0 Hspec0 Hx Hnc Hout)
    as (o & self' & Hcall & Hr' & Hspec' & Hc' & Ho).
  exists o, self'.
  split; [exact Hcall|]. split; [exact Hr'|]. split; [exact Hspec'|].
  split; [|exact Ho].
  destruct Hc as (C1 & C2 & C3 & C4). destruct Hc' as (D1 & D2 & D3 & D4).
  repeat split; congruence.
Qed.

End CallShape.

(** C4.  On an instance as the constructor or a forward pass leaves it:
    whenever a call with [training=False] returns, a second such call on
    the same input returns the same output and leaves the object as the
    first call left it, and the variables of the normalisation layer
    ([u]) are those from before the calls.  And the first call does
    return when the framework's layers behave as documented and the
    input is one the object takes: rank 4, not empty, with the channel
    count the layer was built on if it is built, and large enough for the
    output not to be empty. *)
Theorem call_inference_repeatable {FW : Framework}
    (self : SpectralNormalization.t) (x : tensor) :
  fresh self \/ ready self ->
  (forall o self1,
     SpectralNormalization.call self x false = Ok (o, self1) ->
     SpectralNormalization.call self1 x false = Ok (o, self1)
     /\ SpectralNormalization.variables self1
        = SpectralNormalization.variables self)
  /\ (lawful FW ->
      forall nb nh nw nc,
        accepts self nc -> shape x = [nb; nh; nw; nc] -> nc <> 0 ->
        size_of (conv_output (SpectralNormalization.layer self) (shape x))
        <> 0 ->
        exists o self1,
          SpectralNormalization.call self x false = Ok (o, self1)).
Proof.
  intros Hs. split.
  - intros o self1 Hcall.
    destruct (call_twice self x o self1 Hs Hcall) as (H1 & H2 & _).
    now split.
  - intros HFW nb nh nw nc Ha Hx Hnc Hout.
    destruct (sn_call_shape HFW self x false nb nh nw nc Ha Hx Hnc Hout)
      as (o & self1 & Hcall & _).
    now exists o, self1.
Qed.

Lemma call_inference_repeatable_witness :
  exists o self1,
    SpectralNormalization.call (FW := example_framework) sn_new pixel false
    = Ok (o, self1)
    /\ SpectralNormalization.call (FW := example_framework) self1 pixel false
       = Ok (o, self1)
    /\ SpectralNormalization.variables self1
       = SpectralNormalization.variables sn_new.
Proof.
  destruct (call_inference_repeatable (FW := example_framework) sn_new pixel
              (or_introl sn_new_fresh)) as (Hsame & Hret).
  destruct (Hret example_framework_lawful 1 1 1 1 (or_introl sn_new_fresh)
              eq_refl) as (o & self1 & Hcall).
  - discriminate.
  - discriminate.
  - exists o, self1. split; [exact Hcall|]. exact (Hsame o self1 Hcall).
Defined.

(** ** Reshape with an inferred leading extent *)

Lemma existsb_of_nat (rest : list nat) :
  existsb (fun d => (d <? -1)%Z) (map Z.of_nat rest) = false.
Proof.
  induction rest as [|d rest IH]; simpl; [reflexivity|].
  rewrite IH. replace (Z.of_nat d <? -1)%Z with false; [reflexivity|].
  symmetry. apply Z.ltb_ge. lia.
Qed.

Lemma filter_of_nat (rest : list nat) :
  filter (fun d => (d <? 0)%Z) (map Z.of_nat rest) = [].
Proof.
  induction rest as [|d rest IH]; simpl; [reflexivity|].
  replace (Z.of_nat d <? 0)%Z with false; [exact IH|].
  symmetry. apply Z.ltb_ge. lia.
Qed.

Lemma known_extent_of_nat (rest : list nat) :
  size_of rest <> 0 ->
  known_extent (map Z.of_nat rest) = size_of rest.
Proof.
  unfold known_extent.
  induction rest as [|d rest IH]; intros H; simpl in *; [reflexivity|].
  assert (Hd : d <> 0) by (intros ->; simpl in H; lia).
  assert (Hr : size_of rest <> 0) by (intros E; rewrite E in H; lia).
  replace (Z.of_nat d <=? 0)%Z with false by (symmetry; apply Z.leb_gt; lia).
  now rewrite IH, Nat2Z.id.
Qed.

Lemma has_zero_of_nat (rest : list nat) :
  size_of rest <> 0 -> has_zero (map Z.of_nat rest) = false.
Proof.
  unfold has_zero.
  induction rest as [|d rest IH]; intros H; simpl in *; [reflexivity|].
  assert (Hd : d <> 0) by (intros ->; simpl in H; lia).
  assert (Hr : size_of rest <> 0) by (intros E; rewrite E in H; lia).
  replace (Z.of_nat d =? 0)%Z with false by (symmetry; apply Z.eqb_neq; lia).
  now rewrite IH.
Qed.

Lemma map_inferred_of_nat (rest : list nat) (q : nat) :
  map (fun d => if (d <? 0)%Z then q else Z.to_nat d) (map Z.of_nat rest)
  = rest.
Proof.
  induction rest as [|d rest IH]; simpl; [reflexivity|].
  replace (Z.of_nat d <? 0)%Z with false by (symmetry; apply Z.ltb_ge; lia).
  now rewrite IH, Nat2Z.id.
Qed.

(** [tf.reshape(t, [-1] + rest)] when the extents [rest] divide the
    number of elements. *)
Lemma tf_reshape_infer (t : tensor) (b : nat) (rest : list nat) :
  size_of (shape t) = b * size_of rest -> size_of rest <> 0 ->
  tf_reshape t ((-1)%Z :: map Z.of_nat rest) = Ok (mkTensor (b :: rest) (data t)).
Proof.
  intros Hn Hk. unfold tf_reshape, count_inferred.
  cbn [existsb filter map].
  change (-1 <? -1)%Z with false. change (-1 <? 0)%Z with true.
  cbn [orb].
  rewrite existsb_of_nat, filter_of_nat. cbn [length].
  assert (Ek : known_extent ((-1)%Z :: map Z.of_nat rest) = size_of rest)
    by (exact (known_extent_of_nat rest Hk)).
  assert (Ez : has_zero ((-1)%Z :: map Z.of_nat rest) = false)
    by (exact (has_zero_of_nat rest Hk)).
  rewrite Ek, Ez. cbn [map].
  change (-1 <? 0)%Z with true. cbv iota.
  rewrite map_inferred_of_nat.
  cbn [andb negb].
  change (counted_elements false (shape t)) with (size_of (shape t)).
  rewrite Hn.
  rewrite Nat.div_mul by assumption.
  replace (size_of rest * b =? b * size_of rest) with true
    by (symmetry; apply Nat.eqb_eq; lia).
  cbn [negb].
  replace (b * size_of rest =? size_of (b :: rest)) with true
    by (symmetry; apply Nat.eqb_eq; reflexivity).
  reflexivity.
Qed.

(** Batched product of rank-3 tensors. *)
Lemma tf_matmul_rank3 (a b : tensor) (ta tb : bool) (nb ra ca rb cb : nat) :
  shape a = [nb; ra; ca] -> shape b = [nb; rb; cb] ->
  (if ta then ra else ca) = (if tb then cb else rb) ->
  exists t,
    tf_matmul a b ta tb = Ok t
    /\ shape t = [nb; if ta then ca else ra; if tb then rb else cb]
    /\ well_shaped t.
Proof.
  intros Ha Hb Hk. unfold tf_matmul. rewrite Ha, Hb.
  cbn [split_last2 rev app].
  rewrite broadcast_shapes_same, Hk, Nat.eqb_refl.
  eexists. split; [reflexivity|]. split; [reflexivity|].
  unfold well_shaped. cbn [data shape]. apply tabulate_length.
Qed.

(* ================================================================== *)
(** * [SelfAttentionModule] *)

Lemma state_filters_nonzero (s : SpectralNormalization.t) :
  fresh s \/ ready s -> Conv2D.filters (SpectralNormalization.layer s) <> 0.
Proof.
  intros [(_ & _ & _ & (Hf & _) & _) | (_ & (Hf & _) & _)]; exact Hf.
Qed.

Lemma accepts_state (s : SpectralNormalization.t) (channels : nat) :
  accepts s channels -> fresh s \/ ready s.
Proof. intros [H | (H & _)]; auto. Qed.

Section Attention.
Context {FW : Framework}.
Hypothesis FW_lawful : lawful FW.

Lemma projection_shape (s : SpectralNormalization.t) (filters : nat)
    (x : tensor) (training : bool) (nb nh nw nc : nat) :
  projection_ok s nc filters -> shape x = [nb; nh; nw; nc] ->
  nb <> 0 -> nh <> 0 -> nw <> 0 -> nc <> 0 ->
  exists o s',
    SpectralNormalization.call s x training = Ok (o, s')
    /\ shape o = [nb; nh; nw; filters]
    /\ filters <> 0.
Proof.
  intros (Hs & Hf & Hk & Hst & Hp) Hx Hnb Hnh Hnw Hnc.
  assert (Hfn : filters <> 0)
    by (rewrite <- Hf; eapply state_filters_nonzero, accepts_state, Hs).
  assert (Hout : conv_output (SpectralNormalization.layer s) (shape x)
                 = [nb; nh; nw; filters]).
  { rewrite Hx. unfold conv_output. rewrite Hf, Hk, Hst, Hp.
    cbn [fst snd]. now rewrite !out_extent_valid_1. }
  destruct (sn_call_shape FW_lawful s x training nb nh nw nc Hs Hx Hnc)
    as (o & s' & Hcall & _ & _ & _ & Ho).
  { rewrite Hout. now apply size_of_4_nonzero. }
  exists o, s'. split; [exact Hcall|]. split; [congruence | exact Hfn].
Qed.

(** On a module in order and an input with even height and width,
    [compute_attention] returns a tensor of the shape of its input. *)
Lemma compute_attention_returns (self : SelfAttentionModule.t) (x : tensor)
    (training : bool) (nb h2 w2 c : nat) :
  attention_ok self c ->
  shape x = [nb; 2 * h2; 2 * w2; c] -> nb <> 0 -> h2 <> 0 -> w2 <> 0 ->
  exists o self',
    SelfAttentionModule.compute_attention self x training = Ok (o, self')
    /\ shape o = shape x
    /\ SelfAttentionModule.variables self' = SelfAttentionModule.variables self.
Proof.
  intros (Hf & Hg & Hh & Hout) Hx Hnb Hh2 Hw2.
  assert (Hc2 : c / 2 <> 0).
  { destruct Hh as (Hs & Hfl & _). rewrite <- Hfl.
    eapply state_filters_nonzero, accepts_state, Hs. }
  assert (Hc : c <> 0) by (intros ->; now apply Hc2).
  assert (H2h : 2 * h2 <> 0) by lia.
  assert (H2w : 2 * w2 <> 0) by lia.
  set (hw := 2 * h2 * (2 * w2)).
  assert (Hhw : hw <> 0) by (unfold hw; lia).
  assert (Hq : hw / 4 = h2 * w2).
  { unfold hw. replace (2 * h2 * (2 * w2)) with (h2 * w2 * 4) by ring.
    now apply Nat.div_mul. }
  assert (Hq0 : h2 * w2 <> 0) by (now apply Nat.neq_mul_0).
  assert (Hd2 : forall n, 2 * n / 2 = n)
    by (intros n; rewrite Nat.mul_comm; now apply Nat.div_mul).
  unfold SelfAttentionModule.compute_attention. rewrite Hx.
  fold hw. rewrite Hq.
  (* f *)
  destruct (projection_shape _ _ x training _ _ _ _ Hf Hx Hnb H2h H2w Hc)
    as (fx0 & f' & -> & Hfx0 & Hks).
  cbn [bind].
  change [(-1)%Z; Z.of_nat hw; Z.of_nat (SelfAttentionModule.key_size self)]
    with ((-1)%Z :: map Z.of_nat [hw; SelfAttentionModule.key_size self]).
  rewrite (tf_reshape_infer fx0 nb [hw; SelfAttentionModule.key_size self]);
    [| rewrite Hfx0; unfold hw; cbn [size_of fold_right]; ring
     | cbn [size_of fold_right]; rewrite Nat.mul_1_r; now apply Nat.neq_mul_0].
  cbn [bind].
  (* g *)
  destruct (projection_shape _ _ x training _ _ _ _ Hg Hx Hnb H2h H2w Hc)
    as (gx0 & g' & -> & Hgx0 & _).
  cbn [bind].
  pose proof (max_pool_shape FW_lawful gx0 Hgx0) as Hgp.
  rewrite !Hd2 in Hgp.
  change [(-1)%Z; Z.of_nat (h2 * w2);
          Z.of_nat (SelfAttentionModule.key_size self)]
    with ((-1)%Z :: map Z.of_nat [h2 * w2; SelfAttentionModule.key_size self]).
  rewrite (tf_reshape_infer (max_pool gx0) nb
             [h2 * w2; SelfAttentionModule.key_size self]);
    [| rewrite Hgp; cbn [size_of fold_right]; ring
     | cbn [size_of fold_right]; rewrite Nat.mul_1_r; now apply Nat.neq_mul_0].
  cbn [bind].
  (* s, beta *)
  destruct (tf_matmul_rank3
              (mkTensor [nb; hw; SelfAttentionModule.key_size self] (data fx0))
              (mkTensor [nb; h2 * w2; SelfAttentionModule.key_size self]
                 (data (max_pool gx0)))
              false true nb hw (SelfAttentionModule.key_size self) (h2 * w2)
              (SelfAttentionModule.key_size self) eq_refl eq_refl eq_refl)
    as (s & -> & Hs & _).
  cbn [bind].
  pose proof (softmax_shape FW_lawful s) as Hbeta. rewrite Hs in Hbeta.
  (* h *)
  destruct (projection_shape _ _ x training _ _ _ _ Hh Hx Hnb H2h H2w Hc)
    as (hx0 & h' & -> & Hhx0 & _).
  cbn [bind].
  pose proof (max_pool_shape FW_lawful hx0 Hhx0) as Hhp.
  rewrite !Hd2 in Hhp.
  change [(-1)%Z; Z.of_nat (h2 * w2); Z.of_nat (c / 2)]
    with ((-1)%Z :: map Z.of_nat [h2 * w2; c / 2]).
  rewrite (tf_reshape_infer (max_pool hx0) nb [h2 * w2; c / 2]);
    [| rewrite Hhp; cbn [size_of fold_right]; ring
     | cbn [size_of fold_right]; rewrite Nat.mul_1_r; now apply Nat.neq_mul_0].
  cbn [bind].
  (* interim *)
  destruct (tf_matmul_rank3 (softmax s)
              (mkTensor [nb; h2 * w2; c / 2] (data (max_pool hx0)))
              false false nb hw (h2 * w2) (h2 * w2) (c / 2)
              Hbeta eq_refl eq_refl)
    as (interim0 & -> & Hi0 & _).
  cbn [bind].
  change [(-1)%Z; Z.of_nat (2 * h2); Z.of_nat (2 * w2); Z.of_nat (c / 2)]
    with ((-1)%Z :: map Z.of_nat [2 * h2; 2 * w2; c / 2]).
  rewrite (tf_reshape_infer interim0 nb [2 * h2; 2 * w2; c / 2]);
    [| rewrite Hi0; unfold hw; cbn [size_of fold_right]; ring
     | cbn [size_of fold_right]; rewrite Nat.mul_1_r;
       apply Nat.neq_mul_0; split; [lia|];
       apply Nat.neq_mul_0; split; [lia | assumption]].
  cbn [bind].
  (* out *)
  destruct (projection_shape (SelfAttentionModule.out self) c
              (mkTensor [nb; 2 * h2; 2 * w2; c / 2] (data interim0))
              training nb (2 * h2) (2 * w2) (c / 2) Hout eq_refl
              Hnb H2h H2w Hc2)
    as (o & out' & -> & Ho & _).
  cbn [bind].
  eexists. eexists. split; [reflexivity|]. split; [congruence | reflexivity].
Qed.

End Attention.



Lemma projection_fresh (channels filters : nat) (init_gain : R) :
  filters <> 0 ->
  projection_ok
    (SelfAttentionModule.projection (FW := example_framework) filters init_gain)
    channels filters.
Proof.
  intros Hf. unfold projection_ok, SelfAttentionModule.projection. simpl.
  repeat split; auto.
  left. unfold fresh, positive_config. simpl.
  repeat split; auto; try lia.
  eexists. split; [reflexivity|]. split; [reflexivity|].
  apply (initial_value_well_shaped (FW := example_framework)).
Defined.

Lemma attention_new_ok : attention_ok attention_new 2.
Proof.
  repeat split; try (left; apply projection_fresh; discriminate);
    apply projection_fresh; discriminate.
Defined.


(** X13.  Whatever the value of [gamma], on a module whose projections
    take the channels [call] hands them and on a valid input (rank 4, a
    non-empty batch, even non-zero height and width, as many channels as
    [output_channels]), [call] returns a tensor of the shape of [x]. *)
Theorem attention_call_shape {FW : Framework}
    (self : SelfAttentionModule.t) (x gm : tensor) (training : bool)
    (nb h2 w2 c : nat) :
  lawful FW ->
  attention_ok self c ->
  SelfAttentionModule.gamma self = Ok gm -> shape gm = [] ->
  shape x = [nb; 2 * h2; 2 * w2; c] -> nb <> 0 -> h2 <> 0 -> w2 <> 0 ->
  exists y self',
    SelfAttentionModule.call self x training = Ok (y, self')
    /\ shape y = shape x.
Proof.
  intros HFW Hok Hg Hgs Hx Hnb Hh2 Hw2.
  destruct (compute_attention_returns HFW self x training nb h2 w2 c
              Hok Hx Hnb Hh2 Hw2) as (o & self' & Hca & Ho & Hv).
  unfold SelfAttentionModule.call. rewrite Hca. cbn [bind].
  assert (Hg' : SelfAttentionModule.gamma self' = Ok gm)
    by (unfold SelfAttentionModule.gamma in *; now rewrite Hv).
  rewrite Hg'. cbn [bind].
  unfold tf_mul, elementwise at 1.
  assert (Hb : broadcast_shapes (shape gm) (shape o) = Some (shape o)).
  { rewrite Hgs. unfold broadcast_shapes. simpl. now rewrite rev_involutive. }
  rewrite Hb. cbn [bind].
  match goal with
  | |- exists y s, bind (tf_add ?go x) _ = _ /\ _ =>
      destruct (elementwise_same_shape Rplus go x) as (y & Hy & Hys);
        [simpl; congruence|]
  end.
  unfold tf_add. rewrite Hy. cbn [bind].
  exists y, self'. split; [reflexivity|].
  rewrite Hys. simpl. exact Ho.
Qed.

Lemma attention_call_shape_witness :
  exists y self',
    SelfAttentionModule.call (FW := example_framework)
      attention_new image_2x2x2 true = Ok (y, self')
    /\ shape y = [1; 2; 2; 2].
Proof.
  apply (attention_call_shape (FW := example_framework)
           attention_new image_2x2x2 (constant 0) true 1 1 1 2).
  - exact example_framework_lawful.
  - exact attention_new_ok.
  - reflexivity.
  - reflexivity.
  - reflexivity.
  - discriminate.
  - discriminate.
  - discriminate.
Defined.

(* ================================================================== *)
(** * [ResidualBlock] *)

Lemma out_extent_same_1 (n k : nat) : out_extent Same n k 1 = n.
Proof. unfold out_extent. rewrite Nat.div_1_r. lia. Qed.

Lemma sn_init_fresh {FW : Framework} (filters : nat) (ks : nat * nat)
    (s : stride) (p : padding) (ini : initializer) (use_bias : bool) (n : Z) :
  filters <> 0 -> fst ks <> 0 -> snd ks <> 0 ->
  fst (stride_pair s) <> 0 -> snd (stride_pair s) <> 0 -> (1 <= n)%Z ->
  fresh (SpectralNormalization.__init__
           (Conv2D.new filters ks s p ini use_bias) n).
Proof.
  intros Hf Hk1 Hk2 Hs1 Hs2 Hn. unfold fresh, positive_config. simpl.
  repeat split; auto.
  eexists. split; [reflexivity|]. split; [reflexivity|].
  apply initial_value_well_shaped.
Qed.

Section Residual.
Context {FW : Framework}.

Lemma pipeline_keeps (self : ResidualBlock.t) (x : tensor) (training : bool)
    (h : tensor) (self1 : ResidualBlock.t) :
  ResidualBlock.pipeline self x training = Ok (h, self1) ->
  ResidualBlock.process_identity self1 = ResidualBlock.process_identity self
  /\ ResidualBlock.first_block self1 = ResidualBlock.first_block self
  /\ ResidualBlock.last_block self1 = ResidualBlock.last_block self.
Proof.
  unfold ResidualBlock.pipeline.
  destruct (SpectralNormalization.call (ResidualBlock.conv_1 self) _ training)
    as [[h1 c1]|]; cbn [bind]; [|discriminate].
  destruct (SpectralNormalization.call (ResidualBlock.conv_2 self) _ training)
    as [[h3 c2]|]; cbn [bind]; [|discriminate].
  intros H. injection H as _ <-. auto.
Qed.

(** X5.  Once the residual pipeline has produced [h]: when [h] has the
    shape of [x], the block returns [x + h] and the identity convolution
    is not touched; when the shapes differ, it returns
    [process_identity(x') + h], where [x'] is [x] pooled unless this is
    the last block. *)
Theorem residual_identity_adjusted_iff_shapes_differ
    (self : ResidualBlock.t) (x : tensor) (training : bool)
    (h : tensor) (self1 : ResidualBlock.t) :
  ResidualBlock.pipeline self x training = Ok (h, self1) ->
  (shape h = shape x ->
     ResidualBlock.call self x training = (y <- tf_add x h;; Ok (y, self1))
     /\ ResidualBlock.process_identity self1
        = ResidualBlock.process_identity self)
  /\ (shape h <> shape x ->
      ResidualBlock.call self x training
      = ('(x2, p) <- SpectralNormalization.call
                       (ResidualBlock.process_identity self)
                       (if ResidualBlock.last_block self
                        then x else average_pool x)
                       training;;
         y <- tf_add x2 h;;
         Ok (y, ResidualBlock.mk (ResidualBlock.first_block self)
                  (ResidualBlock.last_block self) p
                  (ResidualBlock.conv_1 self1) (ResidualBlock.conv_2 self1)))).
Proof.
  intros Hp. destruct (pipeline_keeps _ _ _ _ _ Hp) as (Hpi & Hfb & Hlb).
  unfold ResidualBlock.call. rewrite Hp. cbn [bind].
  split; intros Hs.
  - apply shape_eqb_eq in Hs. rewrite Hs. cbn [negb bind].
    split; [reflexivity | exact Hpi].
  - destruct (shape_eqb (shape h) (shape x)) eqn:E.
    + apply shape_eqb_eq in E. contradiction.
    + cbn [negb]. rewrite Hpi, Hfb, Hlb.
      destruct (ResidualBlock.last_block self); cbn [negb];
        destruct (SpectralNormalization.call _ _ training) as [[x2 p]|];
        reflexivity.
Qed.

Hypothesis FW_lawful : lawful FW.

(** The residual pipeline of a stride-1 block on a rank-4 input that is
    not empty. *)
Lemma pipeline_shape (self : ResidualBlock.t) (output_channels : nat)
    (x : tensor) (training : bool) (nb nh nw c : nat) :
  block_stride_1 self c output_channels -> shape x = [nb; nh; nw; c] ->
  nb <> 0 -> nh <> 0 -> nw <> 0 -> c <> 0 ->
  exists h self1,
    ResidualBlock.pipeline self x training = Ok (h, self1)
    /\ shape h
       = (if ResidualBlock.last_block self
          then [nb; nh; nw; output_channels]
          else [nb; nh / 2; nw / 2; output_channels]).
Proof.
  intros ((H1 & H2 & _) & (F1 & K1 & S1 & P1) & (F2 & K2 & S2 & P2) & _) Hx
    Hnb Hnh Hnw Hc.
  rewrite F1 in H2.
  assert (Hoc : output_channels <> 0).
  { rewrite <- F1. eapply state_filters_nonzero, accepts_state, H1. }
  unfold ResidualBlock.pipeline.
  set (h0 := if negb (ResidualBlock.first_block self) then relu x else x).
  assert (Hh0 : shape h0 = [nb; nh; nw; c]).
  { unfold h0. destruct (ResidualBlock.first_block self); cbn [negb];
      [exact Hx | now rewrite (relu_shape FW_lawful)]. }
  assert (Ho1 : conv_output
                  (SpectralNormalization.layer (ResidualBlock.conv_1 self))
                  (shape h0) = [nb; nh; nw; output_channels]).
  { rewrite Hh0. unfold conv_output. rewrite F1, K1, S1, P1. cbn [fst snd].
    now rewrite !out_extent_same_1. }
  destruct (sn_call_shape FW_lawful _ h0 training nb nh nw c H1 Hh0 Hc)
    as (h1 & c1 & -> & _ & _ & _ & Hh1).
  { rewrite Ho1. now apply size_of_4_nonzero. }
  rewrite Ho1 in Hh1. cbn [bind].
  assert (Hh2 : shape (relu h1) = [nb; nh; nw; output_channels])
    by (now rewrite (relu_shape FW_lawful)).
  assert (Ho2 : conv_output
                  (SpectralNormalization.layer (ResidualBlock.conv_2 self))
                  (shape (relu h1)) = [nb; nh; nw; output_channels]).
  { rewrite Hh2. unfold conv_output. rewrite F2, K2, S2, P2. cbn [fst snd].
    now rewrite !out_extent_same_1. }
  destruct (sn_call_shape FW_lawful _ (relu h1) training nb nh nw
              output_channels H2 Hh2 Hoc)
    as (h3 & c2 & -> & _ & _ & _ & Hh3).
  { rewrite Ho2. now apply size_of_4_nonzero. }
  rewrite Ho2 in Hh3. cbn [bind].
  eexists. eexists. split; [reflexivity|].
  destruct (ResidualBlock.last_block self); cbn [negb].
  - exact Hh3.
  - exact (average_pool_shape FW_lawful h3 Hh3).
Qed.

(** X6.  A block with stride 1 whose convolutions take the channels
    [call] hands them returns, on a rank-4 input that is not empty and
    stays so when it is down-sampled, a tensor with [output_channels]
    channels, of the input's height and width if it is the last block and
    of half of each otherwise. *)
Theorem residual_block_output_shape (self : ResidualBlock.t)
    (output_channels : nat) (x : tensor) (training : bool)
    (nb nh nw c : nat) :
  block_stride_1 self c output_channels -> shape x = [nb; nh; nw; c] ->
  nb <> 0 -> c <> 0 ->
  (if ResidualBlock.last_block self then nh else nh / 2) <> 0 ->
  (if ResidualBlock.last_block self then nw else nw / 2) <> 0 ->
  exists y self',
    ResidualBlock.call self x training = Ok (y, self')
    /\ shape y
       = (if ResidualBlock.last_block self
          then [nb; nh; nw; output_channels]
          else [nb; nh / 2; nw / 2; output_channels]).
Proof.
  intros Hb Hx Hnb Hc Hh' Hw'.
  assert (Hnh : nh <> 0).
  { intros ->. destruct (ResidualBlock.last_block self); now apply Hh'. }
  assert (Hnw : nw <> 0).
  { intros ->. destruct (ResidualBlock.last_block self); now apply Hw'. }
  destruct (pipeline_shape self output_channels x training nb nh nw c Hb Hx
              Hnb Hnh Hnw Hc)
    as (h & self1 & Hp & Hh).
  destruct (pipeline_keeps _ _ _ _ _ Hp) as (Hpi & Hfb & Hlb).
  destruct Hb as ((H1 & _ & H3) & (F1 & _) & _ & (F3 & K3 & S3 & P3)).
  assert (Hoc : output_channels <> 0).
  { rewrite <- F1. eapply state_filters_nonzero, accepts_state, H1. }
  unfold ResidualBlock.call. rewrite Hp. cbn [bind].
  destruct (shape_eqb (shape h) (shape x)) eqn:E; cbn [negb bind].
  - apply shape_eqb_eq in E.
    destruct (elementwise_same_shape Rplus x h E) as (y & Hy & Hys).
    unfold tf_add. rewrite Hy. cbn [bind].
    exists y, self1. split; [reflexivity|]. congruence.
  - rewrite Hpi, Hlb.
    set (x1 := if negb (ResidualBlock.last_block self)
               then average_pool x else x).
    set (mh := if ResidualBlock.last_block self then nh else nh / 2) in *.
    set (mw := if ResidualBlock.last_block self then nw else nw / 2) in *.
    assert (Hx1 : shape x1 = [nb; mh; mw; c]).
    { unfold x1, mh, mw. destruct (ResidualBlock.last_block self); cbn [negb];
        [exact Hx | exact (average_pool_shape FW_lawful x Hx)]. }
    assert (Hh1 : shape h = [nb; mh; mw; output_channels]).
    { rewrite Hh. unfold mh, mw.
      now destruct (ResidualBlock.last_block self). }
    assert (Ho3 : conv_output
                    (SpectralNormalization.layer
                       (ResidualBlock.process_identity self))
                    (shape x1) = [nb; mh; mw; output_channels]).
    { rewrite Hx1. unfold conv_output. rewrite F3, K3, S3, P3. cbn [fst snd].
      now rewrite !out_extent_valid_1. }
    destruct (sn_call_shape FW_lawful _ x1 training nb mh mw c H3 Hx1 Hc)
      as (x2 & p & -> & _ & _ & _ & Hx2).
    { rewrite Ho3. now apply size_of_4_nonzero. }
    rewrite Ho3 in Hx2. cbn [bind].
    assert (Hx2h : shape h = shape x2) by congruence.
    destruct (elementwise_same_shape Rplus x2 h Hx2h) as (y & Hy & Hys).
    unfold tf_add. rewrite Hy. cbn [bind].
    eexists. eexists. split; [reflexivity|].
    rewrite Hys, Hx2. unfold mh, mw.
    now destruct (ResidualBlock.last_block self).
Qed.

End Residual.

Lemma block_new_stride_1 : block_stride_1 block_new 1 2.
Proof.
  unfold block_stride_1, block_ok, block_new, ResidualBlock.__init__.
  cbn [ResidualBlock.conv_1 ResidualBlock.conv_2
       ResidualBlock.process_identity].
  repeat split;
    try (left; apply sn_init_fresh; try discriminate; lia).
Defined.

Lemma residual_block_output_shape_witness :
  exists y self',
    ResidualBlock.call (FW := example_framework) block_new image_2x2x1 false
    = Ok (y, self')
    /\ shape y = [1; 1; 1; 2].
Proof.
  apply (residual_block_output_shape (FW := example_framework)
           example_framework_lawful block_new 2 image_2x2x1 false 1 2 2 1
           block_new_stride_1 eq_refl); discriminate.
Defined.

Lemma residual_identity_adjusted_iff_shapes_differ_witness :
  exists h self1,
    ResidualBlock.pipeline (FW := example_framework)
      block_new image_2x2x1 false = Ok (h, self1)
    /\ shape h <> shape image_2x2x1
    /\ ResidualBlock.call (FW := example_framework) block_new image_2x2x1 false
       = ('(x2, p) <- SpectralNormalization.call (FW := example_framework)
                        (ResidualBlock.process_identity block_new)
                        (average_pool (Framework := example_framework)
                           image_2x2x1)
                        false;;
          y <- tf_add x2 h;;
          Ok (y, ResidualBlock.mk false false p
                   (ResidualBlock.conv_1 self1) (ResidualBlock.conv_2 self1))).
Proof.
  assert (N1 : 1 <> 0) by discriminate.
  assert (N2 : 2 <> 0) by discriminate.
  destruct (pipeline_shape (FW := example_framework) example_framework_lawful
              block_new 2 image_2x2x1 false 1 2 2 1
              block_new_stride_1 eq_refl N1 N2 N2 N1) as (h & self1 & Hp & Hh).
  assert (Hne : shape h <> shape image_2x2x1)
    by (rewrite Hh; discriminate).
  exists h, self1. split; [exact Hp|]. split; [exact Hne|].
  exact (proj2 (residual_identity_adjusted_iff_shapes_differ
                  (FW := example_framework)
                  block_new image_2x2x1 false h self1 Hp) Hne).
Defined.

(* ================================================================== *)
(** * More on [SpectralNormalization] *)

(** X3.  An object asked for no power iteration ([n_power_iterations <=
    0]) cannot normalise its weights: on an otherwise initialised object
    [power_iteration], [normalize_weights] and [call] all raise
    [UnboundLocalError], the loop having left [spectral_norm] and [u]
    unbound. *)
Theorem no_power_iteration_raises {FW : Framework}
    (self : SpectralNormalization.t) (n : Z) (x : tensor) (training : bool) :
  ready self -> (n <= 0)%Z ->
  let self0 := SpectralNormalization.set_n_power_iterations self n in
  (forall W, SpectralNormalization.power_iteration self0 W
             = Raise UnboundLocalError)
  /\ SpectralNormalization.normalize_weights self0 training
     = Raise UnboundLocalError
  /\ SpectralNormalization.call self0 x training = Raise UnboundLocalError.
Proof.
  intros Hr Hn self0.
  assert (Hpi : forall W, SpectralNormalization.power_iteration self0 W
                          = Raise UnboundLocalError)
    by (intros W; apply power_iteration_no_pass; exact Hn).
  pose proof (normalize_weights_no_pass self n training Hr Hn) as Hnw.
  fold self0 in Hnw.
  split; [exact Hpi|]. split; [exact Hnw|].
  destruct Hr as (Hi & _).
  unfold SpectralNormalization.call.
  cbn [self0 SpectralNormalization.set_n_power_iterations
       SpectralNormalization.init].
  rewrite Hi. cbn [negb bind]. fold self0. now rewrite Hnw.
Qed.

Lemma no_power_iteration_raises_witness :
  SpectralNormalization.call (FW := example_framework)
    (SpectralNormalization.set_n_power_iterations sn_ready 0) pixel true
  = Raise UnboundLocalError.
Proof.
  apply (no_power_iteration_raises (FW := example_framework)
           sn_ready 0 pixel true sn_ready_ready).
  lia.
Defined.

(** ** The norm of a normalised vector *)

Local Open Scope R_scope.

Lemma sum_squares_nonneg (d : list R) :
  0 <= sum_list (map (fun x => x * x) d).
Proof.
  induction d as [|x d IH]; simpl; [lra|].
  pose proof (Rle_0_sqr x) as Hx. unfold Rsqr in Hx. lra.
Qed.

Lemma sum_squares_scaled (d : list R) (c : R) :
  c <> 0 ->
  sum_list (map (fun x => x * x) (map (fun x => x / c) d))
  = sum_list (map (fun x => x * x) d) / (c * c).
Proof.
  intros Hc. induction d as [|x d IH]; simpl.
  - unfold Rdiv. ring.
  - rewrite IH. field. exact Hc.
Qed.

Lemma l2_norm_scaled (d : list R) (c : R) :
  0 < c -> l2_norm (map (fun x => x / c) d) = l2_norm d / c.
Proof.
  intros Hc. unfold l2_norm.
  rewrite sum_squares_scaled by lra.
  rewrite sqrt_div_alt by nra.
  now rewrite sqrt_square by lra.
Qed.

(** X4.  [normalize_l2] returns a vector whose Euclidean norm is
    [|v| / (|v| + epsilon)]: below 1 for every [v], and 0 for the zero
    vector. *)
Theorem normalize_l2_norm (v : tensor) :
  well_shaped v ->
  exists t,
    SpectralNormalization.normalize_l2 v SpectralNormalization.default_epsilon
    = Ok t
    /\ shape t = shape v
    /\ l2_norm (data t)
       = l2_norm (data v)
         / (l2_norm (data v) + SpectralNormalization.default_epsilon)
    /\ 0 <= l2_norm (data t) < 1.
Proof.
  intros Hv. rewrite (normalize_l2_value _ _ Hv).
  eexists. split; [reflexivity|]. split; [reflexivity|].
  pose proof default_epsilon_pos as He.
  pose proof (l2_norm_nonneg (data v)) as Hn.
  cbn [data]. unfold l2_normalized.
  rewrite l2_norm_scaled by lra.
  split; [reflexivity|]. split.
  - apply Rmult_le_pos; [exact Hn|].
    left. apply Rinv_0_lt_compat. lra.
  - apply (Rmult_lt_reg_r (l2_norm (data v)
                           + SpectralNormalization.default_epsilon)); [lra|].
    unfold Rdiv. rewrite Rmult_assoc, Rinv_l by lra. lra.
Qed.

Lemma normalize_l2_norm_witness :
  exists t,
    SpectralNormalization.normalize_l2 (mkTensor [2; 1]%nat [3; 4])
      SpectralNormalization.default_epsilon = Ok t
    /\ shape t = [2; 1]%nat
    /\ l2_norm (data t)
       = l2_norm [3; 4]
         / (l2_norm [3; 4] + SpectralNormalization.default_epsilon)
    /\ 0 <= l2_norm (data t) < 1.
Proof.
  apply (normalize_l2_norm (mkTensor [2; 1]%nat [3; 4])). reflexivity.
Defined.

Local Close Scope R_scope.

(** ** What the first forward pass sets up *)

(** X9.  The first forward pass of a fresh object on a rank-4 input that
    is not empty, nor its output, returns and leaves the object
    initialised: the flag [init] is set, the layer is built on the
    channels of [x], the attribute [kernel] holds a plain tensor of the
    kernel's shape, and the layer's weights are the bias (zeros) if any
    and [kernel_orig], which holds a copy of the kernel's initial value
    [K] (not the value [add_weight] drew for it); the variable [kernel]
    is no longer among them. *)
Theorem first_call_initializes {FW : Framework}
    (self : SpectralNormalization.t) (x : tensor)
    (training : bool) (nb nh nw c : nat) :
  lawful FW ->
  fresh self -> shape x = [nb; nh; nw; c] -> c <> 0 ->
  size_of (conv_output (SpectralNormalization.layer self) (shape x)) <> 0 ->
  let L := SpectralNormalization.layer self in
  let K := initial_value (Conv2D.kernel_initializer L)
             [fst (Conv2D.kernel_size L); snd (Conv2D.kernel_size L); c;
              Conv2D.filters L] in
  exists o self',
    SpectralNormalization.call self x training = Ok (o, self')
    /\ SpectralNormalization.init self' = true
    /\ Conv2D.input_spec (SpectralNormalization.layer self') = Some c
    /\ Conv2D.variables (SpectralNormalization.layer self')
       = (if Conv2D.use_bias L
          then [mkVariable "bias" (initial_value Zeros [Conv2D.filters L])
                  true]
          else [])
         ++ [mkVariable "kernel_orig" K true]
    /\ (exists W_sn,
          Conv2D.kernel_attr (SpectralNormalization.layer self')
          = Some (Conv2D.KernelTensor W_sn)
          /\ shape W_sn = shape K)
    /\ ready self'.
Proof.
  intros HFW Hf Hx Hc Hout L K.
  destruct (initialize_fresh self x nb nh nw c Hf Hx)
    as (self0 & Hini & Hr0 & Hspec0 & _ & Hcfg & Hub & Hattr & Hvars).
  pose proof Hf as (_ & _ & _ & (Hfl & Hkh & Hkw & Hs1 & Hs2) & _).
  fold L in Hini, Hcfg, Hub, Hvars, Hfl, Hkh, Hkw, Hs1, Hs2, Hout.
  cbv zeta in Hini. fold K in Hini, Hvars.
  assert (Hout' := Hout).
  rewrite Hx in Hout'. cbn [conv_output] in Hout'.
  destruct (@conv2d_shape FW HFW (Conv2D.strides L) (Conv2D.conv_padding L)
              K (if Conv2D.use_bias L
                 then Some (initial_value Zeros [Conv2D.filters L]) else None)
              x nb nh nw c
              (fst (Conv2D.kernel_size L)) (snd (Conv2D.kernel_size L))
              (Conv2D.filters L))
    as (y & Hy & _); auto.
  { intros bt. destruct (Conv2D.use_bias L); [|discriminate].
    intros E. injection E as <-. reflexivity. }
  { now apply size_of_4_nonzero. }
  rewrite Hy in Hini. cbn [bind] in Hini.
  rewrite (call_fresh self self0 x training Hf Hr0 Hini).
  rewrite <- (conv_output_same_config _ _ (shape x) Hcfg) in Hout.
  destruct (call_ready_returns HFW self0 x training nb nh nw c
              Hr0 Hspec0 Hx Hc Hout)
    as (Wo & Wr & sn & un & W_sn & s' & o & HWo & _ & _ & HW & _ & HL & Hr'
        & _ & _ & Hcall).
  exists o, (SpectralNormalization.set_layer s'
               (Conv2D.set_kernel (SpectralNormalization.layer self0) W_sn)).
  split; [exact Hcall|].
  split; [now destruct Hr' as (Hi' & _)|].
  split; [exact Hspec0|].
  split.
  { cbn [SpectralNormalization.set_layer SpectralNormalization.layer
         Conv2D.set_kernel Conv2D.variables].
    rewrite Hattr, Hvars.
    destruct (Conv2D.use_bias L); reflexivity. }
  split.
  { exists W_sn. split; [reflexivity|].
    rewrite HW. cbn [shape].
    rewrite Hvars in HWo.
    assert (E : Wo = K).
    { destruct (Conv2D.use_bias L); cbn in HWo; congruence. }
    now rewrite E. }
  pose proof (ready_set_kernel s' W_sn Hr') as H.
  rewrite HL in H. exact H.
Qed.

Lemma first_call_initializes_witness :
  exists o self',
    SpectralNormalization.call (FW := example_framework) sn_new pixel true
    = Ok (o, self')
    /\ SpectralNormalization.init self' = true
    /\ Conv2D.input_spec (SpectralNormalization.layer self') = Some 1
    /\ Conv2D.variables (SpectralNormalization.layer self')
       = [mkVariable "bias"
            (initial_value (FW := example_framework) Zeros [2]) true;
          mkVariable "kernel_orig"
            (initial_value (FW := example_framework) GlorotUniform [1; 1; 1; 2])
            true]
    /\ (exists W_sn,
          Conv2D.kernel_attr (SpectralNormalization.layer self')
          = Some (Conv2D.KernelTensor W_sn)
          /\ shape W_sn = [1; 1; 1; 2])
    /\ ready self'.
Proof.
  apply (first_call_initializes (FW := example_framework)
           sn_new pixel true 1 1 1 1 example_framework_lawful
           sn_new_fresh eq_refl); discriminate.
Defined.

(* ================================================================== *)
(** * [InstanceNormalization] *)

Lemma ravel_lt (s idx : list nat) :
  Forall2 lt idx s -> ravel s idx < size_of s.
Proof.
  intros H. induction H as [|j d idx s Hj _ IH]; simpl; [lia | nia].
Qed.

(** The element of a broadcast operation at an index of its result. *)
Lemma elementwise_at (f : R -> R -> R) (a b : tensor) (s : list nat) :
  broadcast_shapes (shape a) (shape b) = Some s ->
  exists y,
    elementwise f a b = Ok y
    /\ shape y = s
    /\ well_shaped y
    /\ forall idx,
         Forall2 lt idx s ->
         item (data y) (ravel s idx)
         = f (item (data a) (ravel (shape a) (bcast_index (shape a) idx)))
             (item (data b) (ravel (shape b) (bcast_index (shape b) idx))).
Proof.
  intros Hs. unfold elementwise. rewrite Hs.
  eexists. split; [reflexivity|]. split; [reflexivity|]. split.
  - unfold well_shaped. simpl. apply tabulate_length.
  - intros idx Hidx. simpl.
    rewrite item_tabulate by (apply ravel_lt; exact Hidx).
    unfold bcast_item. now rewrite (unravel_ravel s idx Hidx).
Qed.

Lemma broadcast_shapes_spatial (nb nh nw nc : nat) :
  broadcast_shapes [nb; nh; nw; nc] [nb; 1; 1; nc] = Some [nb; nh; nw; nc].
Proof.
  unfold broadcast_shapes. simpl.
  rewrite !Nat.eqb_refl.
  destruct (Nat.eqb_spec nw 1) as [->|_]; destruct (Nat.eqb_spec nh 1) as [->|_];
    reflexivity.
Qed.

Lemma broadcast_shapes_channel (nb nh nw nc : nat) :
  broadcast_shapes [nb; nh; nw; nc] [1; nc] = Some [nb; nh; nw; nc].
Proof.
  unfold broadcast_shapes. simpl.
  rewrite Nat.eqb_refl.
  destruct (Nat.eqb_spec nw 1) as [->|_]; reflexivity.
Qed.

Section Indices.

Variables (nb nh nw nc b i j c : nat).
Hypothesis (Hb : b < nb) (Hi : i < nh) (Hj : j < nw) (Hc : c < nc).

Lemma in_range_4 : Forall2 lt [b; i; j; c] [nb; nh; nw; nc].
Proof. repeat constructor; assumption. Qed.

Lemma bcast_index_full :
  bcast_index [nb; nh; nw; nc] [b; i; j; c] = [b; i; j; c].
Proof.
  unfold bcast_index. simpl skipn.
  apply clamp_index_in_range. exact in_range_4.
Qed.

Lemma ravel_bcast_spatial :
  ravel [nb; 1; 1; nc] (bcast_index [nb; 1; 1; nc] [b; i; j; c])
  = b * (nc * 1) + c.
Proof.
  unfold bcast_index. simpl.
  destruct (Nat.eqb_spec nb 1); destruct (Nat.eqb_spec nc 1); lia.
Qed.

Lemma ravel_bcast_channel :
  ravel [1; nc] (bcast_index [1; nc] [b; i; j; c]) = c.
Proof.
  unfold bcast_index. simpl.
  destruct (Nat.eqb_spec nc 1); lia.
Qed.

End Indices.

Lemma sum_upto_ext (n : nat) (f g : nat -> R) :
  (forall i, i < n -> f i = g i) -> sum_upto n f = sum_upto n g.
Proof. intros H. unfold sum_upto. now rewrite (tabulate_ext n f g H). Qed.

(** The statistic at [(b, c)] that [reduce_spatial] stores. *)
Lemma reduce_spatial_item
    (stat : list R -> nat -> nat -> nat -> nat -> nat -> R)
    (x : tensor) (nb nh nw nc : nat) :
  shape x = [nb; nh; nw; nc] ->
  exists t,
    reduce_spatial stat x = Ok t
    /\ shape t = [nb; nc]
    /\ length (data t) = nb * (nc * 1)
    /\ forall b c, b < nb -> c < nc ->
         item (data t) (b * (nc * 1) + c) = stat (data x) nh nw (nc * 1) b c.
Proof.
  intros Hx. unfold reduce_spatial. rewrite Hx.
  eexists. split; [reflexivity|]. split; [reflexivity|]. split.
  - simpl. apply tabulate_length.
  - intros b c Hb Hc. cbn [data size_of fold_right].
    rewrite item_tabulate by nia.
    rewrite Nat.div_add_l, Nat.div_small, Nat.add_0_r by lia.
    rewrite Nat.add_comm, Nat.Div0.mod_add, Nat.mod_small by lia.
    reflexivity.
Qed.

Lemma item_map (f : R -> R) (d : list R) (i : nat) :
  i < length d -> item (map f d) i = f (item d i).
Proof.
  intros Hi. unfold item.
  rewrite (nth_indep _ 0%R (f 0%R)) by now rewrite length_map.
  apply map_nth.
Qed.

Lemma spatial_item_at4 (x : tensor) (nb nh nw nc b i j c : nat) :
  shape x = [nb; nh; nw; nc] ->
  spatial_item (data x) nh nw (nc * 1) b i j c = at4 x b i j c.
Proof.
  intros Hx. unfold spatial_item, at4. rewrite Hx. f_equal. simpl. ring.
Qed.

Lemma spatial_mean_channel (x : tensor) (nb nh nw nc b c : nat) :
  shape x = [nb; nh; nw; nc] ->
  spatial_mean (data x) nh nw (nc * 1) b c = channel_mean x nh nw b c.
Proof.
  intros Hx. unfold spatial_mean, channel_mean. f_equal.
  apply sum_upto_ext. intros i _. apply sum_upto_ext. intros j _.
  now apply spatial_item_at4 with (nb := nb).
Qed.

Lemma spatial_std_channel (x : tensor) (nb nh nw nc b c : nat) :
  shape x = [nb; nh; nw; nc] ->
  spatial_std (data x) nh nw (nc * 1) b c = channel_std x nh nw b c.
Proof.
  intros Hx. unfold spatial_std, channel_std. do 2 f_equal.
  apply sum_upto_ext. intros i _. apply sum_upto_ext. intros j _.
  cbv zeta.
  rewrite (spatial_item_at4 x nb nh nw nc b i j c Hx).
  now rewrite (spatial_mean_channel x nb nh nw nc b c Hx).
Qed.

Section InstanceNorm.
Context {FW : Framework}.

(** What [call] computes, element by element. *)
Lemma instance_norm_values (self : InstanceNormalization.t)
    (x gm bt : tensor) (nb nh nw nc : nat) :
  shape x = [nb; nh; nw; nc] ->
  (InstanceNormalization.affine self = true ->
   InstanceNormalization.gamma self = Ok gm
   /\ InstanceNormalization.beta self = Ok bt
   /\ shape gm = [1; nc] /\ shape bt = [1; nc]) ->
  exists y,
    InstanceNormalization.call self x = Ok y
    /\ shape y = [nb; nh; nw; nc]
    /\ well_shaped y
    /\ forall b i j k,
         b < nb -> i < nh -> j < nw -> k < nc ->
         at4 y b i j k
         = (let z := ((at4 x b i j k - channel_mean x nh nw b k)
                      / (channel_std x nh nw b k
                         + InstanceNormalization.eps self))%R in
            if InstanceNormalization.affine self
            then (z * item (data gm) k + item (data bt) k)%R
            else z).
Proof.
  intros Hx Haff.
  destruct (reduce_spatial_item spatial_mean x nb nh nw nc Hx)
    as (m0 & Hm0 & Hm0s & Hm0l & Hm0v).
  destruct (reduce_spatial_item spatial_std x nb nh nw nc Hx)
    as (s0 & Hs0 & Hs0s & Hs0l & Hs0v).
  unfold InstanceNormalization.call, reduce_mean_1_2, reduce_std_1_2.
  set (e := InstanceNormalization.eps self).
  rewrite Hm0. cbn [bind]. unfold expand_dims at 1. rewrite Hm0s.
  cbn [length Nat.leb firstn skipn app bind].
  unfold expand_dims at 1.
  cbn [shape data length Nat.leb firstn skipn app bind].
  rewrite Hs0. cbn [bind]. unfold expand_dims at 1. rewrite Hs0s.
  cbn [length Nat.leb firstn skipn app bind].
  unfold expand_dims at 1.
  cbn [shape data length Nat.leb firstn skipn app bind].
  (* x - mean *)
  destruct (elementwise_at Rminus x (mkTensor [nb; 1; 1; nc] (data m0))
              [nb; nh; nw; nc])
    as (cen & Hcen & Hcens & _ & Hcenv).
  { rewrite Hx. apply broadcast_shapes_spatial. }
  unfold tf_sub. rewrite Hcen. cbn [bind].
  (* std + eps *)
  unfold tf_add at 1.
  rewrite (elementwise_ones_r Rplus (mkTensor [nb; 1; 1; nc] (data s0))
             (constant e));
    [| unfold well_shaped; simpl; lia | constructor | simpl; lia].
  cbn [bind shape data constant item nth].
  (* (x - mean) / (std + eps) *)
  destruct (elementwise_at Rdiv cen
              (mkTensor [nb; 1; 1; nc]
                 (map (fun v => (v + e)%R) (data s0)))
              [nb; nh; nw; nc])
    as (x1 & Hx1 & Hx1s & Hx1w & Hx1v).
  { rewrite Hcens. apply broadcast_shapes_spatial. }
  unfold tf_div. rewrite Hx1. cbn [bind].
  assert (Hz : forall b i j k,
             b < nb -> i < nh -> j < nw -> k < nc ->
             item (data x1) (ravel [nb; nh; nw; nc] [b; i; j; k])
             = ((at4 x b i j k - channel_mean x nh nw b k)
                / (channel_std x nh nw b k + e))%R).
  { intros b i j k Hb Hi Hj Hk.
    rewrite (Hx1v _ (in_range_4 nb nh nw nc b i j k Hb Hi Hj Hk)).
    rewrite Hcens.
    rewrite (bcast_index_full nb nh nw nc b i j k Hb Hi Hj Hk).
    rewrite (Hcenv _ (in_range_4 nb nh nw nc b i j k Hb Hi Hj Hk)).
    rewrite Hx.
    rewrite (bcast_index_full nb nh nw nc b i j k Hb Hi Hj Hk).
    cbn [shape data].
    rewrite (ravel_bcast_spatial nb nh nw nc b i j k Hb Hi Hj Hk).
    rewrite item_map by (rewrite Hs0l; nia).
    rewrite (Hm0v b k Hb Hk), (Hs0v b k Hb Hk).
    rewrite (spatial_mean_channel x nb nh nw nc b k Hx).
    rewrite (spatial_std_channel x nb nh nw nc b k Hx).
    unfold at4. rewrite Hx. reflexivity. }
  destruct (InstanceNormalization.affine self) eqn:Ha.
  - destruct (Haff eq_refl) as (Hg & Hb & Hgs & Hbs).
    rewrite Hg, Hb. cbn [bind].
    destruct (elementwise_at Rmult x1 gm [nb; nh; nw; nc]) as (sc & Hsc & Hscs & _ & Hscv).
    { rewrite Hx1s, Hgs. apply broadcast_shapes_channel. }
    unfold tf_mul. rewrite Hsc. cbn [bind].
    destruct (elementwise_at Rplus sc bt [nb; nh; nw; nc]) as (y & Hy & Hys & Hyw & Hyv).
    { rewrite Hscs, Hbs. apply broadcast_shapes_channel. }
    unfold tf_add. rewrite Hy.
    exists y. split; [reflexivity|]. split; [exact Hys|]. split; [exact Hyw|].
    intros b i j k Hb' Hi Hj Hk. cbv zeta.
    unfold at4 at 1. rewrite Hys.
    rewrite (Hyv _ (in_range_4 nb nh nw nc b i j k Hb' Hi Hj Hk)).
    rewrite Hscs, Hbs.
    rewrite (bcast_index_full nb nh nw nc b i j k Hb' Hi Hj Hk).
    rewrite (ravel_bcast_channel nb nh nw nc b i j k Hb' Hi Hj Hk).
    rewrite (Hscv _ (in_range_4 nb nh nw nc b i j k Hb' Hi Hj Hk)).
    rewrite Hx1s, Hgs.
    rewrite (bcast_index_full nb nh nw nc b i j k Hb' Hi Hj Hk).
    rewrite (ravel_bcast_channel nb nh nw nc b i j k Hb' Hi Hj Hk).
    now rewrite (Hz b i j k Hb' Hi Hj Hk).
  - exists x1. split; [reflexivity|]. split; [exact Hx1s|]. split; [exact Hx1w|].
    intros b i j k Hb' Hi Hj Hk. cbv zeta.
    unfold at4 at 1. rewrite Hx1s.
    exact (Hz b i j k Hb' Hi Hj Hk).
Qed.

(** X7.  On an input of shape [[n, h, w, c]], [call] returns a tensor of
    that shape whose element [(b, i, j, k)] is
    [(x[b,i,j,k] - mean) / (std + eps)], [mean] and [std] being the mean and
    the population standard deviation of channel [k] of sample [b] over
    height and width; with [affine], and [gamma] and [beta] of shape
    [[1, c]], that value is multiplied by [gamma[k]] and [beta[k]] is
    added. *)
Theorem instance_norm_elementwise (self : InstanceNormalization.t)
    (x gm bt : tensor) (nb nh nw nc : nat) :
  shape x = [nb; nh; nw; nc] ->
  (InstanceNormalization.affine self = true ->
   InstanceNormalization.gamma self = Ok gm
   /\ InstanceNormalization.beta self = Ok bt
   /\ shape gm = [1; nc] /\ shape bt = [1; nc]) ->
  exists y,
    InstanceNormalization.call self x = Ok y
    /\ shape y = [nb; nh; nw; nc]
    /\ well_shaped y
    /\ forall b i j k,
         b < nb -> i < nh -> j < nw -> k < nc ->
         at4 y b i j k
         = (let z := ((at4 x b i j k - channel_mean x nh nw b k)
                      / (channel_std x nh nw b k
                         + InstanceNormalization.eps self))%R in
            if InstanceNormalization.affine self
            then (z * item (data gm) k + item (data bt) k)%R
            else z).
Proof. exact (instance_norm_values self x gm bt nb nh nw nc). Qed.

(** ** Sums of normalised values *)

Lemma sum_list_affine (l : list nat) (f : nat -> R) (m d : R) :
  sum_list (map (fun i => ((f i - m) / d)%R) l)
  = ((sum_list (map f l) - INR (length l) * m) / d)%R.
Proof.
  induction l as [|i l IH].
  - simpl. unfold Rdiv. ring.
  - cbn [map sum_list fold_right length]. fold (sum_list (map f l)).
    fold (sum_list (map (fun i => ((f i - m) / d)%R) l)).
    rewrite IH, S_INR. unfold Rdiv. ring.
Qed.

Lemma sum_upto_affine (n : nat) (f : nat -> R) (m d : R) :
  sum_upto n (fun i => ((f i - m) / d)%R)
  = ((sum_upto n f - INR n * m) / d)%R.
Proof.
  unfold sum_upto, tabulate. rewrite sum_list_affine.
  now rewrite length_seq.
Qed.

(** X8.  Without [affine], every (sample, channel) slice of the output
    has mean 0 over height and width. *)
Theorem instance_norm_zero_mean (self : InstanceNormalization.t)
    (x : tensor) (nb nh nw nc : nat) :
  shape x = [nb; nh; nw; nc] ->
  InstanceNormalization.affine self = false ->
  0 < nh -> 0 < nw ->
  exists y,
    InstanceNormalization.call self x = Ok y
    /\ forall b k, b < nb -> k < nc -> channel_mean y nh nw b k = 0%R.
Proof.
  intros Hx Ha Hnh Hnw.
  destruct (instance_norm_values self x x x nb nh nw nc Hx)
    as (y & Hy & _ & _ & Hv).
  { rewrite Ha. discriminate. }
  exists y. split; [exact Hy|].
  intros b k Hb Hk. rewrite Ha in Hv. cbv zeta in Hv.
  unfold channel_mean at 1.
  set (m := channel_mean x nh nw b k).
  set (d := (channel_std x nh nw b k + InstanceNormalization.eps self)%R).
  rewrite (sum_upto_ext nh _
             (fun i => ((sum_upto nw (fun j => at4 x b i j k) - INR nw * m)
                        / d)%R)).
  - rewrite sum_upto_affine.
    assert (HN : (INR (nh * nw) <> 0)%R).
    { apply not_0_INR. nia. }
    assert (Hm : (INR nh * (INR nw * m)
                  = sum_upto nh (fun i => sum_upto nw (fun j => at4 x b i j k)))%R).
    { unfold m, channel_mean. rewrite mult_INR in *. field.
      split; intros E; apply HN; rewrite E; ring. }
    rewrite Hm. unfold Rdiv. ring.
  - intros i Hi. rewrite <- sum_upto_affine.
    apply sum_upto_ext. intros j Hj.
    exact (Hv b i j k Hb Hi Hj Hk).
Qed.

(** X11.  In a layer built with [affine=True], [gamma] is all ones and
    [beta] all zeros, so until they are changed the layer returns the
    plain normalised values [(x - mean) / (std + 1e-12)]. *)
Theorem instance_norm_affine_starts_neutral (x : tensor) (nb nh nw nc : nat) :
  shape x = [nb; nh; nw; nc] ->
  let self := InstanceNormalization.__init__ nc true in
  InstanceNormalization.eps self = (1 / 1000000000000)%R
  /\ exists y,
       InstanceNormalization.call self x = Ok y
       /\ shape y = [nb; nh; nw; nc]
       /\ forall b i j k,
            b < nb -> i < nh -> j < nw -> k < nc ->
            at4 y b i j k
            = ((at4 x b i j k - channel_mean x nh nw b k)
               / (channel_std x nh nw b k + 1 / 1000000000000))%R.
Proof.
  intros Hx self. split; [reflexivity|].
  destruct (instance_norm_values self x
              (initial_value Ones [1; nc]) (initial_value Zeros [1; nc])
              nb nh nw nc Hx)
    as (y & Hy & Hys & _ & Hv).
  { intros _. repeat split. }
  exists y. split; [exact Hy|]. split; [exact Hys|].
  intros b i j k Hb Hi Hj Hk.
  rewrite (Hv b i j k Hb Hi Hj Hk). cbv zeta.
  cbn [self InstanceNormalization.__init__ InstanceNormalization.affine
       InstanceNormalization.eps].
  unfold initial_value. cbn [data size_of fold_right].
  rewrite !item_tabulate by lia. ring.
Qed.

End InstanceNorm.

Lemma instance_norm_elementwise_witness :
  exists y,
    InstanceNormalization.call norm_affine image_2x2x1 = Ok y
    /\ shape y = [1; 2; 2; 1]
    /\ well_shaped y.
Proof.
  destruct (instance_norm_elementwise norm_affine image_2x2x1
              (initial_value (FW := example_framework) Ones [1; 1])
              (initial_value (FW := example_framework) Zeros [1; 1])
              1 2 2 1 eq_refl)
    as (y & Hy & Hs & Hw & _).
  - intros _. repeat split.
  - exists y. auto.
Defined.

Lemma instance_norm_zero_mean_witness :
  exists y,
    InstanceNormalization.call norm_plain image_2x2x1 = Ok y
    /\ channel_mean y 2 2 0 0 = 0%R.
Proof.
  destruct (instance_norm_zero_mean norm_plain image_2x2x1 1 2 2 1
              eq_refl eq_refl)
    as (y & Hy & Hm); [lia | lia |].
  exists y. split; [exact Hy|]. apply Hm; lia.
Defined.

Lemma instance_norm_affine_starts_neutral_witness :
  exists y,
    InstanceNormalization.call norm_affine image_2x2x1 = Ok y
    /\ shape y = [1; 2; 2; 1].
Proof.
  destruct (instance_norm_affine_starts_neutral (FW := example_framework)
              image_2x2x1 1 2 2 1 eq_refl)
    as (_ & y & Hy & Hs & _).
  exists y. split; [exact Hy | exact Hs].
Defined.

(* ================================================================== *)
(** * What [power_iteration] estimates *)

Local Open Scope R_scope.

Lemma sum_list_app (l l' : list R) :
  sum_list (l ++ l') = sum_list l + sum_list l'.
Proof.
  induction l as [|x l IH]; simpl; [ring|].
  fold (sum_list (l ++ l')). fold (sum_list l). rewrite IH. ring.
Qed.

Lemma sum_upto_S (n : nat) (F : nat -> R) :
  sum_upto (S n) F = sum_upto n F + F n.
Proof.
  unfold sum_upto, tabulate. rewrite seq_S, map_app, sum_list_app.
  simpl. ring.
Qed.

Lemma sum_upto_0 (F : nat -> R) : sum_upto 0 F = 0.
Proof. reflexivity. Qed.

Lemma sum_upto_plus (n : nat) (F G : nat -> R) :
  sum_upto n (fun l => F l + G l) = sum_upto n F + sum_upto n G.
Proof.
  induction n as [|n IH]; [rewrite !sum_upto_0; ring|].
  rewrite !sum_upto_S, IH. ring.
Qed.

Lemma sum_upto_scale_r (n : nat) (F : nat -> R) (c : R) :
  sum_upto n (fun l => F l * c) = sum_upto n F * c.
Proof.
  induction n as [|n IH]; [rewrite !sum_upto_0; ring|].
  rewrite !sum_upto_S, IH. ring.
Qed.

Lemma sum_upto_scale_l (n : nat) (F : nat -> R) (c : R) :
  sum_upto n (fun l => c * F l) = c * sum_upto n F.
Proof.
  induction n as [|n IH]; [rewrite !sum_upto_0; ring|].
  rewrite !sum_upto_S, IH. ring.
Qed.

Lemma sum_upto_const_0 (n : nat) : sum_upto n (fun _ => 0) = 0.
Proof.
  induction n as [|n IH]; [reflexivity|].
  rewrite sum_upto_S, IH. ring.
Qed.

(** Finite sums may be exchanged. *)
Lemma sum_upto_exchange (m n : nat) (g : nat -> nat -> R) :
  sum_upto n (fun l => sum_upto m (fun i => g i l))
  = sum_upto m (fun i => sum_upto n (fun l => g i l)).
Proof.
  induction m as [|m IH].
  - rewrite sum_upto_0. apply sum_upto_const_0.
  - rewrite sum_upto_S, <- IH.
    rewrite <- (sum_upto_plus n (fun l => sum_upto m (fun i => g i l))
                  (fun l => g m l)).
    apply sum_upto_ext. intros l _. exact (sum_upto_S m (fun i => g i l)).
Qed.

Lemma sum_upto_items (g : R -> R) (d : list R) :
  sum_upto (length d) (fun i => g (item d i)) = sum_list (map g d).
Proof. unfold sum_upto. now rewrite tabulate_map. Qed.

Local Close Scope R_scope.

(** The elements of a product of two matrices. *)
Lemma tf_matmul_rank2_item (a b : tensor) (ta tb : bool) (ra ca rb cb : nat) :
  shape a = [ra; ca] -> shape b = [rb; cb] ->
  (if ta then ra else ca) = (if tb then cb else rb) ->
  let m := if ta then ca else ra in
  let k := if ta then ra else ca in
  let n := if tb then rb else cb in
  exists t,
    tf_matmul a b ta tb = Ok t
    /\ shape t = [m; n]
    /\ length (data t) = m * n
    /\ forall i j, i < m -> j < n ->
         item (data t) (i * n + j)
         = sum_upto k (fun l =>
             (item (data a) (if ta then l * ca + i else i * ca + l)
              * item (data b) (if tb then j * cb + l else l * cb + j))%R).
Proof.
  intros Ha Hb Hk m k n. unfold tf_matmul. rewrite Ha, Hb.
  cbn [split_last2 rev app].
  fold m. fold k. fold n. rewrite <- Hk. fold k.
  change (broadcast_shapes [] []) with (Some (@nil nat)).
  rewrite Nat.eqb_refl. cbn [app].
  eexists. split; [reflexivity|]. split; [reflexivity|].
  assert (Hsz : size_of [m; n] = m * n) by (cbn [size_of fold_right]; lia).
  split.
  - cbn [data]. now rewrite tabulate_length.
  - intros i j Hi Hj. cbn [data].
    rewrite item_tabulate by (rewrite Hsz; nia).
    cbn [ravel Nat.mul Nat.add].
    assert (Hlt : i * n + j < m * n) by nia.
    rewrite (Nat.mod_small _ _ Hlt).
    rewrite Nat.div_add_l, (Nat.div_small j n Hj), Nat.add_0_r by lia.
    rewrite (Nat.add_comm (i * n) j), Nat.Div0.mod_add, (Nat.mod_small j n Hj).
    apply sum_upto_ext. intros l _. reflexivity.
Qed.

Local Open Scope R_scope.

Lemma l2_normalized_norm (d : list R) (epsilon : R) :
  0 < epsilon ->
  l2_norm (l2_normalized d epsilon) = l2_norm d / (l2_norm d + epsilon)
  /\ l2_norm (l2_normalized d epsilon) < 1.
Proof.
  intros He. pose proof (l2_norm_nonneg d) as Hn.
  unfold l2_normalized. rewrite l2_norm_scaled by lra.
  split; [reflexivity|].
  apply (Rmult_lt_reg_r (l2_norm d + epsilon)); [lra|].
  unfold Rdiv. rewrite Rmult_assoc, Rinv_l by lra. lra.
Qed.

Lemma l2_norm_sqr (d : list R) :
  l2_norm d * l2_norm d = sum_list (map (fun x => x * x) d).
Proof. unfold l2_norm. apply sqrt_sqrt. apply sum_squares_nonneg. Qed.

Lemma singleton_data (t : tensor) :
  shape t = [1; 1]%nat -> length (data t) = 1%nat ->
  t = mkTensor [1; 1]%nat [item (data t) 0].
Proof.
  destruct t as [s d]. simpl. intros -> Hl.
  destruct d as [|x [|y d]]; try discriminate. reflexivity.
Qed.

Section Estimate.

Variable self : SpectralNormalization.t.
Variables (W u0 : tensor) (f n : nat).
Hypothesis HW : shape W = [f; n]%nat.
Hypothesis Hu : SpectralNormalization.u self = Ok u0.
Hypothesis Hus : shape u0 = [f; 1]%nat.

(** One pass of the loop: [v] is [normalize_l2(W^T u)], of less than
    unit length, [u] becomes [normalize_l2(W v)], and the estimate is
    [|W v|^2 / (|W v| + epsilon)]. *)
Lemma power_iteration_body_value :
  exists Wtu,
    tf_matmul W u0 true false = Ok Wtu
    /\ shape Wtu = [n; 1]%nat
    /\ length (data Wtu) = n
    /\ let vd := l2_normalized (data Wtu)
                   SpectralNormalization.default_epsilon in
       length vd = n
       /\ l2_norm vd < 1
       /\ SpectralNormalization.power_iteration_body self W
          = Ok (mkTensor [n; 1]%nat vd,
                mkTensor [f; 1]%nat
                  (l2_normalized (mat_vec W vd)
                     SpectralNormalization.default_epsilon),
                mkTensor [1; 1]%nat
                  [l2_norm (mat_vec W vd) * l2_norm (mat_vec W vd)
                   / (l2_norm (mat_vec W vd)
                      + SpectralNormalization.default_epsilon)]).
Proof.
  unfold SpectralNormalization.power_iteration_body.
  set (eps := SpectralNormalization.default_epsilon).
  assert (He : 0 < eps) by exact default_epsilon_pos.
  rewrite Hu. cbn [bind].
  (* v *)
  destruct (tf_matmul_rank2_item W u0 true false f n f 1 HW Hus eq_refl)
    as (Wtu & HWtu & HWtus & HWtul & _).
  cbv zeta in HWtus, HWtul.
  exists Wtu. split; [exact HWtu|]. split; [exact HWtus|].
  split; [lia|]. cbv zeta.
  rewrite HWtu. cbn [bind].
  rewrite (normalize_l2_value Wtu eps)
    by (unfold well_shaped; rewrite HWtul, HWtus; cbn [size_of fold_right]; lia).
  cbn [bind]. rewrite HWtus.
  set (vd := l2_normalized (data Wtu) eps).
  assert (Hvl : length vd = n)
    by (unfold vd, l2_normalized; rewrite length_map, HWtul; lia).
  destruct (l2_normalized_norm (data Wtu) eps He) as (_ & Hvn). fold vd in Hvn.
  (* W v *)
  destruct (tf_matmul_rank2_item W (mkTensor [n; 1]%nat vd) false false
              f n n 1 HW eq_refl eq_refl)
    as (Wv & -> & HWvs & HWvl & HWvi).
  cbv zeta in HWvs, HWvl, HWvi. cbn [bind data] in *.
  assert (HWvd : data Wv = mat_vec W vd).
  { unfold mat_vec. rewrite HW.
    rewrite <- (tabulate_item (data Wv)), HWvl, Nat.mul_1_r.
    apply tabulate_ext. intros i Hi.
    replace i with (i * 1 + 0)%nat at 1 by lia.
    rewrite (HWvi i 0%nat Hi Nat.lt_0_1).
    apply sum_upto_ext. intros l _.
    now replace (l * 1 + 0)%nat with l by lia. }
  set (y := mat_vec W vd) in *.
  assert (Hyl : length y = f) by (rewrite <- HWvd, HWvl; lia).
  (* u *)
  rewrite (normalize_l2_value Wv eps)
    by (unfold well_shaped; rewrite HWvl, HWvs; cbn [size_of fold_right]; lia).
  cbn [bind]. rewrite HWvs, HWvd.
  set (c := l2_norm y + eps).
  assert (Hc : 0 < c) by (unfold c; pose proof (l2_norm_nonneg y); lra).
  (* u^T W v *)
  destruct (tf_matmul_rank2_item
              (mkTensor [f; 1]%nat (l2_normalized y eps)) W true false
              f 1 f n eq_refl HW eq_refl)
    as (utW & -> & HutWs & HutWl & HutWi).
  cbv zeta in HutWs, HutWl, HutWi. cbn [bind data] in *.
  destruct (tf_matmul_rank2_item utW (mkTensor [n; 1]%nat vd) false false
              1 n n 1 HutWs eq_refl eq_refl)
    as (sn & -> & Hsns & Hsnl & Hsni).
  cbv zeta in Hsns, Hsnl, Hsni. cbn [bind data] in *.
  split; [exact Hvl|]. split; [exact Hvn|].
  rewrite (singleton_data sn Hsns Hsnl).
  do 4 f_equal.
  change 0%nat with (0 * 1 + 0)%nat.
  rewrite (Hsni 0%nat 0%nat Nat.lt_0_1 Nat.lt_0_1).
  rewrite (sum_upto_ext n _
             (fun l => sum_upto f (fun i =>
                (item y i / c) * (item (data W) (i * n + l) * item vd l)))).
  - rewrite sum_upto_exchange.
    rewrite (sum_upto_ext f _ (fun i => (item y i * item y i) * / c)).
    + rewrite sum_upto_scale_r.
      rewrite <- Hyl at 1. rewrite (sum_upto_items (fun x => x * x) y).
      rewrite <- l2_norm_sqr. reflexivity.
    + intros i Hi. rewrite sum_upto_scale_l.
      replace (sum_upto n (fun l => item (data W) (i * n + l) * item vd l))
        with (item y i).
      * unfold Rdiv. ring.
      * unfold y, mat_vec. rewrite HW. now rewrite item_tabulate.
  - intros l Hl.
    replace (0 * n + l)%nat with l by lia.
    replace l with (0 * n + l)%nat at 1 by lia.
    rewrite (HutWi 0%nat l Nat.lt_0_1 Hl).
    replace (l * 1 + 0)%nat with l by lia.
    rewrite <- sum_upto_scale_r.
    apply sum_upto_ext. intros i Hi.
    replace (i * 1 + 0)%nat with i by lia.
    unfold l2_normalized. rewrite item_map by lia.
    fold c. ring.
Qed.

End Estimate.

Lemma power_iteration_value (self : SpectralNormalization.t)
    (W u0 : tensor) (f n : nat) :
  shape W = [f; n]%nat ->
  SpectralNormalization.u self = Ok u0 ->
  shape u0 = [f; 1]%nat ->
  (1 <= SpectralNormalization.n_power_iterations self)%Z ->
  exists Wtu,
    tf_matmul W u0 true false = Ok Wtu
    /\ length (data Wtu) = n
    /\ let vd := l2_normalized (data Wtu)
                   SpectralNormalization.default_epsilon in
       length vd = n
       /\ l2_norm vd < 1
       /\ SpectralNormalization.power_iteration self W
          = Ok (mkTensor [1; 1]%nat
                  [l2_norm (mat_vec W vd) * l2_norm (mat_vec W vd)
                   / (l2_norm (mat_vec W vd)
                      + SpectralNormalization.default_epsilon)],
                mkTensor [f; 1]%nat
                  (l2_normalized (mat_vec W vd)
                     SpectralNormalization.default_epsilon)).
Proof.
  intros HW Hu Hus Hn.
  destruct (power_iteration_body_value self W u0 f n HW Hu Hus)
    as (Wtu & HWtu & _ & HWtul & Hvl & Hvn & Hbody).
  exists Wtu. split; [exact HWtu|]. split; [exact HWtul|].
  cbv zeta. split; [exact Hvl|]. split; [exact Hvn|].
  unfold SpectralNormalization.power_iteration.
  destruct (Z.to_nat (SpectralNormalization.n_power_iterations self))
    as [|k] eqn:E; [lia|].
  rewrite power_iteration_loop_succ, Hbody. reflexivity.
Qed.

(** ** Dividing a matrix by a positive number *)

Lemma item_map_div (d : list R) (c : R) (k : nat) :
  item (map (fun x => x / c) d) k = item d k / c.
Proof.
  unfold item.
  replace 0 with (0 / c) at 1 by (unfold Rdiv; ring).
  exact (map_nth (fun x => x / c) d 0 k).
Qed.

Lemma mat_vec_scaled (W : tensor) (c : R) (v : list R) :
  mat_vec (mkTensor (shape W) (map (fun x => x / c) (data W))) v
  = map (fun x => x / c) (mat_vec W v).
Proof.
  unfold mat_vec. cbn [shape data].
  destruct (shape W) as [|m [|n [|? ?]]]; try reflexivity.
  unfold tabulate. rewrite map_map. apply map_ext. intros i.
  cbv beta. unfold Rdiv at 2. rewrite <- sum_upto_scale_r.
  apply sum_upto_ext. intros l _.
  rewrite item_map_div. unfold Rdiv. ring.
Qed.

Lemma largest_singular_value_scaled (W : tensor) (s c : R) :
  0 < c -> largest_singular_value W s ->
  largest_singular_value
    (mkTensor (shape W) (map (fun x => x / c) (data W))) (s / c).
Proof.
  intros Hc (Hle & v0 & Hv0l & Hv0n & Hv0s).
  split.
  - intros v Hv. cbn [shape] in Hv.
    rewrite mat_vec_scaled, l2_norm_scaled by exact Hc.
    specialize (Hle v Hv).
    apply (Rmult_le_reg_r c); [exact Hc|].
    replace (l2_norm (mat_vec W v) / c * c) with (l2_norm (mat_vec W v))
      by (field; lra).
    replace (s / c * l2_norm v * c) with (s * l2_norm v) by (field; lra).
    exact Hle.
  - exists v0. cbn [shape]. split; [exact Hv0l|]. split; [exact Hv0n|].
    rewrite mat_vec_scaled, l2_norm_scaled by exact Hc.
    now rewrite Hv0s.
Qed.

(** X12.  With at least one iteration asked for, a matrix [W] of shape
    [[f, n]] and [u] of shape [[f, 1]], [power_iteration] returns the
    estimate [sigma = |W v|^2 / (|W v| + epsilon)], where
    [v = normalize_l2(W^T u)].  It is never negative and never above the
    largest singular value [s] of [W], and strictly below it when [s] is
    positive.  So when [sigma] is positive, [W / sigma] has the largest
    singular value [s / sigma], which is above 1, not at most 1. *)
Theorem power_iteration_estimate_bounded
    (self : SpectralNormalization.t) (W u0 : tensor) (f n : nat) :
  shape W = [f; n]%nat -> well_shaped W ->
  SpectralNormalization.u self = Ok u0 ->
  shape u0 = [f; 1]%nat ->
  (1 <= SpectralNormalization.n_power_iterations self)%Z ->
  exists Wtu u_new,
    tf_matmul W u0 true false = Ok Wtu
    /\ let v := l2_normalized (data Wtu)
                  SpectralNormalization.default_epsilon in
       let N := l2_norm (mat_vec W v) in
       let sigma := N * N / (N + SpectralNormalization.default_epsilon) in
       SpectralNormalization.power_iteration self W
       = Ok (mkTensor [1; 1]%nat [sigma], u_new)
       /\ 0 <= sigma
       /\ forall s, largest_singular_value W s ->
            sigma <= s
            /\ (0 < s -> sigma < s)
            /\ (0 < sigma ->
                exists W_sn,
                  tf_div W (mkTensor [1; 1]%nat [sigma]) = Ok W_sn
                  /\ largest_singular_value W_sn (s / sigma)
                  /\ 1 < s / sigma).
Proof.
  intros HW HWw Hu Hus Hn.
  destruct (power_iteration_value self W u0 f n HW Hu Hus Hn)
    as (Wtu & HWtu & HWtul & Hvl & Hvn & Hpi).
  pose proof default_epsilon_pos as He.
  exists Wtu. eexists. split; [exact HWtu|]. cbv zeta.
  set (vd := l2_normalized (data Wtu) SpectralNormalization.default_epsilon)
    in *.
  set (N := l2_norm (mat_vec W vd)) in *.
  set (eps := SpectralNormalization.default_epsilon) in *.
  assert (HN : 0 <= N) by apply l2_norm_nonneg.
  assert (Hs1 : 0 <= N * N / (N + eps)).
  { apply Rmult_le_pos; [nra|]. left. apply Rinv_0_lt_compat. lra. }
  assert (Hs2 : N * N / (N + eps) <= N).
  { apply (Rmult_le_reg_r (N + eps)); [lra|].
    unfold Rdiv. rewrite Rmult_assoc, Rinv_l by lra. nra. }
  split; [exact Hpi|]. split; [exact Hs1|].
  intros s Hlsv.
  pose proof Hlsv as (Hle & v0 & Hv0l & Hv0n & Hv0s).
  assert (Hs0 : 0 <= s) by (rewrite <- Hv0s; apply l2_norm_nonneg).
  assert (HNs : N <= s * l2_norm vd).
  { apply Hle. rewrite HW. exact Hvl. }
  pose proof (l2_norm_nonneg vd) as Hvd0.
  assert (HNs' : N <= s) by nra.
  assert (Hlt : 0 < s -> N * N / (N + eps) < s).
  { intros Hpos.
    destruct (Req_dec N 0) as [E0|E0].
    - rewrite E0. unfold Rdiv. rewrite Rmult_0_l, Rmult_0_l. exact Hpos.
    - assert (Hlt : N * N / (N + eps) < N).
      { apply (Rmult_lt_reg_r (N + eps)); [lra|].
        unfold Rdiv. rewrite Rmult_assoc, Rinv_l by lra. nra. }
      lra. }
  split; [lra|]. split; [exact Hlt|].
  intros Hsig.
  set (sigma := N * N / (N + eps)) in *.
  exists (mkTensor (shape W) (map (fun x => x / sigma) (data W))).
  split.
  { unfold tf_div.
    rewrite elementwise_ones_r; [reflexivity | exact HWw | repeat constructor|].
    rewrite HW. simpl. lia. }
  split; [now apply largest_singular_value_scaled|].
  assert (Hspos : 0 < s) by lra.
  specialize (Hlt Hspos).
  apply (Rmult_lt_reg_r sigma); [exact Hsig|].
  unfold Rdiv. rewrite Rmult_assoc, Rinv_l by lra. lra.
Qed.

Lemma power_iteration_estimate_bounded_witness :
  exists Wtu u_new,
    tf_matmul diag_5_2 (mkTensor [2; 1]%nat [3 / 5; 2]) true false = Ok Wtu
    /\ let v := l2_normalized (data Wtu)
                  SpectralNormalization.default_epsilon in
       let N := l2_norm (mat_vec diag_5_2 v) in
       let sigma := N * N / (N + SpectralNormalization.default_epsilon) in
       SpectralNormalization.power_iteration sn_twenty diag_5_2
       = Ok (mkTensor [1; 1]%nat [sigma], u_new)
       /\ 0 <= sigma
       /\ forall s, largest_singular_value diag_5_2 s ->
            sigma <= s
            /\ (0 < s -> sigma < s)
            /\ (0 < sigma ->
                exists W_sn,
                  tf_div diag_5_2 (mkTensor [1; 1]%nat [sigma]) = Ok W_sn
                  /\ largest_singular_value W_sn (s / sigma)
                  /\ 1 < s / sigma).
Proof.
  apply (power_iteration_estimate_bounded sn_twenty diag_5_2
           (mkTensor [2; 1]%nat [3 / 5; 2]) 2 2).
  - reflexivity.
  - reflexivity.
  - reflexivity.
  - reflexivity.
  - simpl. lia.
Defined.

Local Close Scope R_scope.

(* ================================================================== *)
(** * What a forward pass installs *)

Local Open Scope R_scope.

Lemma l2_norm_pos_head (x : R) (d : list R) : x <> 0 -> 0 < l2_norm (x :: d).
Proof.
  intros Hx. unfold l2_norm. apply sqrt_lt_R0. cbn [map sum_list fold_right].
  pose proof (sum_squares_nonneg d) as Hd. unfold sum_list in Hd.
  assert (0 < x * x) by nra. lra.
Qed.

(** On [sn_ready] the estimate is not 0. *)
Lemma sn_ready_estimate_nonzero (sn u_new : tensor) :
  SpectralNormalization.power_iteration sn_ready
    (mkTensor [2; 1]%nat [5; 2]) = Ok (sn, u_new) ->
  item (data sn) 0 <> 0.
Proof.
  intros Hpi.
  destruct (power_iteration_value sn_ready (mkTensor [2; 1]%nat [5; 2])
              (mkTensor [2; 1]%nat [3 / 5; 2]) 2 1
              eq_refl eq_refl eq_refl)
    as (Wtu & HWtu & HWtul & Hvl & Hvn & Hpi'); [simpl; lia|].
  rewrite Hpi in Hpi'. injection Hpi' as -> _.
  cbv -[Rplus Rmult Rdiv Rinv Rminus sqrt IZR] in HWtu.
  injection HWtu as <-.
  clear Hpi Hvn Hvl HWtul.
  pose proof default_epsilon_pos as He.
  unfold item. cbn [data nth].
  set (a := 5 * (3 / 5) + (2 * 2 + 0)).
  assert (Ha : 0 < a) by (unfold a; lra).
  unfold l2_normalized. cbn [map].
  set (v1 := a / (l2_norm [a] + SpectralNormalization.default_epsilon)).
  assert (Hv1 : 0 < v1).
  { apply Rdiv_lt_0_compat; [exact Ha|].
    pose proof (l2_norm_nonneg [a]). lra. }
  unfold mat_vec. cbn [shape data].
  unfold sum_upto, tabulate, item.
  cbn [seq map sum_list fold_right Nat.mul Nat.add nth].
  match goal with
  | |- ?n * ?n / _ <> 0 => set (N := n)
  end.
  assert (HN : 0 < N) by (apply l2_norm_pos_head; lra).
  apply Rgt_not_eq. apply Rdiv_lt_0_compat; nra.
Qed.

Local Close Scope R_scope.

(** X10.  A forward pass on an initialised object and an input it takes
    (rank 4, not empty, the channel count the layer was built on, the
    output not empty): [normalize_weights] reads [kernel_orig], reshapes
    it to [[filters, -1]] and has [power_iteration] estimate its spectral
    norm [sigma].  When [sigma] is not 0, the pass returns the convolution
    of [x] with [kernel_orig / sigma] (element by element) and the layer's
    bias; afterwards the attribute [kernel] is that tensor, the variable
    [kernel], if it still was a weight of the layer, is one no longer,
    and [kernel_orig] and the bias are what they were. *)
Theorem call_installs_normalized_kernel {FW : Framework}
    (self : SpectralNormalization.t) (x : tensor) (training : bool)
    (nb nh nw nc : nat) :
  lawful FW -> ready self ->
  Conv2D.input_spec (SpectralNormalization.layer self) = Some nc ->
  shape x = [nb; nh; nw; nc] -> nc <> 0 ->
  size_of (conv_output (SpectralNormalization.layer self) (shape x)) <> 0 ->
  let L := SpectralNormalization.layer self in
  exists W_orig W_res spectral_norm u_new,
    read_var "kernel_orig" (Conv2D.variables L) = Ok W_orig
    /\ tf_reshape W_orig [Z.of_nat (Conv2D.filters L); (-1)%Z] = Ok W_res
    /\ SpectralNormalization.power_iteration self W_res
       = Ok (spectral_norm, u_new)
    /\ (item (data spectral_norm) 0 <> 0%R ->
        let W_sn :=
          mkTensor (shape W_orig)
            (map (fun w => (w / item (data spectral_norm) 0)%R)
               (data W_orig)) in
        exists o self',
          conv2d (Conv2D.strides L) (Conv2D.conv_padding L) W_sn
            (Conv2D.bias L) x = Ok o
          /\ SpectralNormalization.call self x training = Ok (o, self')
          /\ Conv2D.kernel (SpectralNormalization.layer self') = Ok W_sn
          /\ Conv2D.variables (SpectralNormalization.layer self')
             = match Conv2D.kernel_attr L with
               | Some Conv2D.KernelVariable =>
                   untrack "kernel" (Conv2D.variables L)
               | _ => Conv2D.variables L
               end
          /\ read_var "kernel_orig"
               (Conv2D.variables (SpectralNormalization.layer self'))
             = Ok W_orig
          /\ Conv2D.bias (SpectralNormalization.layer self') = Conv2D.bias L
          /\ ready self').
Proof.
  intros HFW Hr Hspec Hx Hnc Hout L.
  destruct (call_ready_returns HFW self x training nb nh nw nc
              Hr Hspec Hx Hnc Hout)
    as (Wo & Wr & sn & un & W_sn & s' & o & HWo & HWr & Hpi & HW & _ & HL
        & Hr' & Hconv & _ & Hcall).
  fold L in HWo, HWr, HL, Hconv, Hcall.
  exists Wo, Wr, sn, un.
  split; [exact HWo|]. split; [exact HWr|]. split; [exact Hpi|].
  intros _. cbv zeta. rewrite <- HW.
  exists o, (SpectralNormalization.set_layer s' (Conv2D.set_kernel L W_sn)).
  split; [exact Hconv|]. split; [exact Hcall|].
  split; [reflexivity|]. split; [reflexivity|].
  split.
  { cbn [SpectralNormalization.set_layer SpectralNormalization.layer].
    rewrite read_kernel_orig_set_kernel. exact HWo. }
  split.
  { cbn [SpectralNormalization.set_layer SpectralNormalization.layer].
    apply bias_set_kernel. }
  pose proof (ready_set_kernel s' W_sn Hr') as H.
  rewrite HL in H. exact H.
Qed.

Lemma call_installs_normalized_kernel_witness :
  exists sigma o self',
    sigma <> 0%R
    /\ SpectralNormalization.call (FW := example_framework) sn_ready pixel false
       = Ok (o, self')
    /\ Conv2D.kernel (SpectralNormalization.layer self')
       = Ok (mkTensor [1; 1; 1; 2] [5 / sigma; 2 / sigma]%R)
    /\ Conv2D.variables (SpectralNormalization.layer self')
       = Conv2D.variables (SpectralNormalization.layer sn_ready).
Proof.
  destruct (call_installs_normalized_kernel (FW := example_framework)
              sn_ready pixel false 1 1 1 1 example_framework_lawful
              sn_ready_ready eq_refl eq_refl)
    as (Wo & Wr & sn & un & HWo & HWr & Hpi & H); try discriminate.
  cbn in HWo. injection HWo as <-.
  change (Z.of_nat (Conv2D.filters (SpectralNormalization.layer sn_ready)))
    with (Z.of_nat 2) in HWr.
  rewrite (tf_reshape_kernel kernel_5_2 1 1 1 2 eq_refl) in HWr
    by discriminate.
  injection HWr as <-.
  assert (Hsig : item (data sn) 0 <> 0%R)
    by (exact (sn_ready_estimate_nonzero sn un Hpi)).
  destruct (H Hsig) as (o & self' & _ & Hcall & Hk & Hv & _).
  exists (item (data sn) 0), o, self'.
  split; [exact Hsig|]. split; [exact Hcall|].
  split; [exact Hk | exact Hv].
Defined.
